(** * numpy-recipes: [pad_max_shape] (shaping.py)

    A shallow embedding of [pad_max_shape] and of the numpy primitives it
    calls, followed by the properties of the padding plan and of the
    padded arrays.

    Modelling conventions.
    - An n-dimensional array is its shape together with its cells in
      row-major (C) order; the element type is a parameter, and the fill
      value has that type.
    - Integer matrices (the shape matrix, margins, pad widths) are lists of
      rows over [Z]: an int64 is read as the integer it holds, without
      wrap-around.
    - One dtype is tracked, that of the shape matrix of line 154: numpy
      makes it int64 when some shape has an entry and float64, its
      default, when none has (no array, or arrays of rank 0). [margin],
      [pad_after] and [pad] inherit it, and [np.pad] refuses pad widths
      that are not integers.
    - A float64 is read as the rational it denotes; only finite values
      are modelled (no inf, no NaN, no overflow). Sums, differences and
      products are the exact results rounded to the nearest float64,
      ties to even, with 53 bits of precision and subnormals down to
      2^-1074, as IEEE 754 has it; so is the conversion of an int64 to
      float64. The entries of a specification are float64 values;
      [py_float q] is the one that the Python literal [q] denotes.
      [astype(int)] truncates toward zero. [tie_break] is a function
      applied cell by cell.
    - [before] and [after] are a scalar, a sequence or a nested sequence,
      that is, an array of rank at most two.
    - numpy's primitives follow their documentation and their source:
      broadcasting of axes of equal length or of length one, [max] over
      an axis, and [np.pad] with one pair of non-negative integer widths
      per axis.
    - A Python exception is a value [Raise e]; the first exception raised
      ends the call. *)

From Stdlib Require Import ZArith QArith Qround Qabs Qpower Lia.
From stdpp Require Import base tactics option numbers list.

Set Default Proof Using "Type".
Local Open Scope Z_scope.

(** ** Exceptions *)

Inductive exn : Type :=
  | ValueError_inhomogeneous   (* np.array / np.asarray on a ragged nested sequence *)
  | ValueError_broadcast       (* operands could not be broadcast together *)
  | ValueError_zero_size       (* zero-size array to reduction operation maximum (minimum) *)
  | ValueError_negative_pad    (* np.pad: index can't contain negative values *)
  | ValueError_pad_width       (* np.pad: pad_width cannot be broadcast to (ndim, 2) *)
  | TypeError_pad_width.       (* np.pad: `pad_width` must be of integral type *)

Inductive result (A : Type) : Type :=
  | Ok (a : A)
  | Raise (e : exn).
Arguments Ok {A} a.
Arguments Raise {A} e.

#[global] Instance result_ret : MRet result := λ A a, Ok a.
#[global] Instance result_bind : MBind result := λ A B f m,
  match m with Ok a => f a | Raise e => Raise e end.
#[global] Instance result_fmap : FMap result := λ A B f m,
  match m with Ok a => Ok (f a) | Raise e => Raise e end.

(** The computation returns. *)
Definition is_Ok {A} (m : result A) : Prop := ∃ a, m = Ok a.

(** ** Arrays *)

Record ndarray (A : Type) : Type := mk_ndarray {
  shape : list nat;
  data : list A
}.
Arguments mk_ndarray {A} shape data.
Arguments shape {A} _.
Arguments data {A} _.

(** Number of cells of an array of the given shape. *)
Definition size_of (s : list nat) : nat := foldr Nat.mul 1%nat s.

(** The invariant of numpy arrays: as many cells as the shape says. *)
Definition wf {A} (x : ndarray A) : Prop := length (data x) = size_of (shape x).

(** Row-major position of the cell at multi-index [idx]. *)
Fixpoint ravel (s idx : list nat) : nat :=
  match s, idx with
  | _ :: s', i :: idx' => (i * size_of s' + ravel s' idx')%nat
  | _, _ => 0%nat
  end.

(** [idx] addresses a cell of an array of shape [s]. *)
Definition in_bounds (s idx : list nat) : Prop := Forall2 (λ i d, (i < d)%nat) idx s.

(** [x[idx]] *)
Definition item {A} (x : ndarray A) (idx : list nat) : option A :=
  data x !! ravel (shape x) idx.

(** ** Broadcasting of arrays of rank at most two

    A matrix is the list of its rows. The list with no row stands for the
    one-dimensional array of length zero (what [np.array([])] returns),
    which broadcasts like a single empty row. *)

(** The operand as a matrix with at least one row. *)
Definition as2d {T} (m : list (list T)) : list (list T) :=
  match m with [] => [[]] | _ => m end.

(** Length of the second axis. *)
Definition ncols {T} (m : list (list T)) : nat :=
  match m with [] => 0%nat | r :: _ => length r end.

(** Length of a broadcast axis. *)
Definition bc (a b : nat) : result nat :=
  if (a =? b)%nat then Ok a
  else if (a =? 1)%nat then Ok b
  else if (b =? 1)%nat then Ok a
  else Raise ValueError_broadcast.

(** Repeat the only element of a length-one axis. *)
Definition stretch {T} (n : nat) (l : list T) : list T :=
  match l with [x] => replicate n x | _ => l end.

(** [op] applied to two operands after broadcasting. *)
Definition broadcast2 {S T U} (op : S → T → U)
    (a : list (list S)) (b : list (list T)) : result (list (list U)) :=
  let a := as2d a in
  let b := as2d b in
  n ← bc (length a) (length b);
  r ← bc (ncols a) (ncols b);
  Ok (zip_with (λ ra rb, zip_with op (stretch r ra) (stretch r rb))
        (stretch n a) (stretch n b)).

(** The cell that broadcasting reads at position [i] of an axis. *)
Definition lookup_bc {T} (l : list T) (i : nat) : option T :=
  match l with [x] => Some x | _ => l !! i end.

(** [np.array] on a list of tuples: they must have the same length. *)
Definition np_array {T} (rows : list (list T)) : result (list (list T)) :=
  if forallb (λ r, (length r =? ncols rows)%nat) rows then Ok rows
  else Raise ValueError_inhomogeneous.

(** [np.zeros_like] and [np.ones_like] of an integer matrix. *)
Definition zeros_like (m : list (list Z)) : list (list Z) := map (map (λ _, 0)) m.
Definition ones_like (m : list (list Z)) : list (list Z) := map (map (λ _, 1)) m.

(** [m.max(axis=0, keepdims=True)] *)
Definition np_max_axis0 (m : list (list Z)) : result (list (list Z)) :=
  match m with
  | [] => Raise ValueError_zero_size
  | r :: rs => Ok [foldl (zip_with Z.max) r rs]
  end.

(** ** Fractions: [float], sequence or array_like *)

Inductive array_like : Type :=
  | Scalar (q : Q)
  | Vector (v : list Q)
  | Matrix (m : list (list Q)).

Definition asarray (f : array_like) : result (list (list Q)) :=
  match f with
  | Scalar q => Ok [[q]]
  | Vector v => Ok [v]
  | Matrix m => np_array m
  end.

(** ** float64 arithmetic *)

(** [2 ^ e], for an exponent of either sign. *)
Definition pow2 (e : Z) : Q := (2 ^ e)%Q.

(** The binary exponent of a positive rational: the [l] with
    [2 ^ l <= x < 2 ^ (l + 1)]. It is the difference of the bit lengths of
    numerator and denominator, or one less. *)
Definition ilog2 (x : Q) : Z :=
  let l := Z.log2 (Qnum x) - Z.log2 (Zpos (Qden x)) in
  if Qle_bool (pow2 l) x then l else l - 1.

(** The nearest integer, a tie going to the even one. *)
Definition rint (x : Q) : Z :=
  let f := Qfloor x in
  match (x - inject_Z f ?= 1 # 2)%Q with
  | Lt => f
  | Eq => if Z.even f then f else f + 1
  | Gt => f + 1
  end.

(** The exponent of the last of the 53 bits of the float64 next to [x];
    below [2 ^ -1022] the values are subnormal and it stays at -1074. *)
Definition ulp_exp (x : Q) : Z := Z.max (ilog2 (Qabs x) - 52) (-1074).

(** The float64 nearest to [x]: [x] is rounded to a multiple of
    [2 ^ ulp_exp x]. *)
Definition round64 (x : Q) : Q :=
  let x := Qred x in
  if Qeq_bool x 0 then 0%Q
  else (inject_Z (rint (x / pow2 (ulp_exp x))) * pow2 (ulp_exp x))%Q.

(** The float64 that a Python literal denotes: the nearest one. *)
Definition py_float (q : Q) : Q := round64 q.

(** [x + y], [x - y] and [x * y] in float64, and [astype(float)]. *)
Definition fadd (x y : Q) : Q := round64 (x + y).
Definition fsub (x y : Q) : Q := round64 (x - y).
Definition fmul (x y : Q) : Q := round64 (x * y).
Definition astype_float (x : Q) : Q := round64 x.

(** [np.floor], [np.ceil] and [astype(int)]. *)
Definition np_floor (x : Q) : Q := inject_Z (Qfloor x).
Definition np_ceil (x : Q) : Q := inject_Z (Qceiling x).
Definition astype_int (x : Q) : Z := Z.quot (Qnum x) (Zpos (Qden x)).

(** ** dtypes of the arrays of pad widths *)

Inductive dtype : Type := int64 | float64.

(** ** [np.pad(x, w, mode='constant', constant_values=value)] *)

(** Cut the first [d] blocks of [k] cells each. *)
Fixpoint chunks {A} (d k : nat) (l : list A) : list (list A) :=
  match d with
  | O => []
  | S d' => take k l :: chunks d' k (drop k l)
  end.

(** The shape after padding: before count, extent and after count. *)
Definition padded_shape (s : list nat) (w : list (nat * nat)) : list nat :=
  zip_with (λ d p, (p.1 + d + p.2)%nat) s w.

(** The cells after padding, axis by axis: [b] blocks of fill, the [d]
    blocks of the array, each padded along the remaining axes, then [a]
    blocks of fill. *)
Fixpoint pad_data {A} (value : A) (s : list nat) (w : list (nat * nat))
    (l : list A) : list A :=
  match s, w with
  | d :: s', (b, a) :: w' =>
      let k' := size_of (padded_shape s' w') in
      replicate (b * k') value
        ++ concat (map (pad_data value s' w') (chunks d (size_of s') l))
        ++ replicate (a * k') value
  | _, _ => l
  end.

(** [w] is the array [pad_width], of dtype [dt], as the list of its
    rows. Widths that are not of an integer dtype are refused first. The
    minimum of the widths is taken next, which fails when there is none,
    and negative widths are refused; a single pair applies to every axis;
    otherwise there must be one pair per axis. *)
Definition np_pad {A} (x : ndarray A) (dt : dtype) (w : list (Z * Z)) (value : A)
    : result (ndarray A) :=
  match dt, w with
  | float64, _ => Raise TypeError_pad_width
  | int64, [] => Raise ValueError_zero_size
  | int64, _ =>
      if existsb (λ p, (p.1 <? 0) || (p.2 <? 0)) w
      then Raise ValueError_negative_pad
      else
        w ← match w with
            | [p] => Ok (replicate (length (shape x)) p)
            | _ => if (length w =? length (shape x))%nat then Ok w
                   else Raise ValueError_pad_width
            end;
        let w := map (λ p : Z * Z, (Z.to_nat p.1, Z.to_nat p.2)) w in
        Ok (mk_ndarray (padded_shape (shape x) w) (pad_data value (shape x) w (data x)))
  end.

(** ** [pad_max_shape] *)

(** The list comprehension of line 164: the first exception ends it. *)
Definition mapM_result {A B} (f : A → result B) : list A → result (list B) :=
  fix go l := match l with
              | [] => Ok []
              | x :: l' => y ← f x; ys ← go l'; Ok (y :: ys)
              end.

(** Line 154: the shape matrix, one row per array. *)
Definition shape_matrix {A} (arrays : list (ndarray A)) : result (list (list Z)) :=
  np_array (map (λ x, map Z.of_nat (shape x)) arrays).

(** Line 154: the dtype of the shape matrix. [np.array] finds integers in
    the shape tuples, unless no tuple has an entry: then the matrix has
    numpy's default dtype. Lines 160, 162 and 163 hand it on to [margin],
    to [pad_after] and to [pad]. *)
Definition shapes_dtype {A} (arrays : list (ndarray A)) : dtype :=
  if forallb (λ x, (length (shape x) =? 0)%nat) arrays then float64 else int64.

(** Lines 155-158: the [before] fractions, broadcast against the shape
    matrix. [before = None] is Python's [before=None]. *)
Definition fractions (shapes : list (list Z))
    (before : option array_like) (after : array_like) : result (list (list Q)) :=
  match before with
  | Some before =>
      b ← asarray before;
      broadcast2 (λ z q, fadd (inject_Z z) q) (zeros_like shapes) b
  | None =>
      a ← asarray after;
      broadcast2 (λ o q, fsub (inject_Z o) q) (ones_like shapes) a
  end.

(** Lines 159-160: [max_size] and [margin]. *)
Definition margins (shapes : list (list Z)) : result (list (list Z)) :=
  max_size ← np_max_axis0 shapes;
  broadcast2 Z.sub max_size shapes.

(** Line 161, one cell of [margin * before.astype(float)]: the int64
    margin is converted to float64 and the product is a float64. *)
Definition scaled_margin (m : Z) (f : Q) : Q :=
  fmul (astype_float (inject_Z m)) (astype_float f).

(** Lines 154-163: the [pad] array, one row of (before, after) pairs per
    input array. *)
Definition pad_widths {A} (arrays : list (ndarray A))
    (before : option array_like) (after : array_like) (tie_break : Q → Q)
    : result (list (list (Z * Z))) :=
  shapes ← shape_matrix arrays;
  before ← fractions shapes before after;
  margin ← margins shapes;
  scaled ← broadcast2 scaled_margin margin before;
  let pad_before := map (map (λ x, astype_int (tie_break x))) scaled in
  pad_after ← broadcast2 Z.sub margin pad_before;
  Ok (zip_with zip pad_before pad_after).

(** [pad_max_shape]: the plan, then line 164, which pads every array by
    its row of the plan; the rows have the dtype of the shape matrix. *)
Definition pad_max_shape {A} (arrays : list (ndarray A))
    (before : option array_like) (after : array_like) (value : A)
    (tie_break : Q → Q) : result (list (ndarray A)) :=
  pad ← pad_widths arrays before after tie_break;
  mapM_result (λ xw, np_pad xw.1 (shapes_dtype arrays) xw.2 value) (zip arrays pad).

(** The call with every optional argument left out. *)
Definition pad_max_shape_default (arrays : list (ndarray Z)) : result (list (ndarray Z)) :=
  pad_max_shape arrays None (Scalar 1) 0 np_floor.

(** ** The arrays of the docstring *)

(** [np.arange(a, b)] and [np.zeros(s, dtype=int) + v]. *)
Definition arange (a b : Z) : ndarray Z :=
  mk_ndarray [Z.to_nat (b - a)] (map (λ i, a + Z.of_nat i) (seq 0 (Z.to_nat (b - a)))).
Definition full (s : list nat) (v : Z) : ndarray Z :=
  mk_ndarray s (replicate (size_of s) v).

Definition arrays_357 : list (ndarray Z) := [arange 0 3; arange 0 5; arange 0 7].
Definition arrays_38 : list (ndarray Z) := [arange 1 4; arange 0 8].
Definition squares : list (ndarray Z) :=
  [full [3; 3]%nat 3; full [5; 5]%nat 5; full [7; 7]%nat 7].

(** ** Arrays at the edges of the domain *)

(** Two arrays of rank 0, [np.array(5)] and [np.array(7)]. *)
Definition scalars : list (ndarray Z) := [mk_ndarray [] [5]; mk_ndarray [] [7]].

(** Two arrays without cells, of shapes [(0, 1)] and [(0, n)]. *)
Definition empties (n : nat) : list (ndarray Z) :=
  [mk_ndarray [0; 1]%nat []; mk_ndarray [0%nat; n] []].

(** The second extent is [2^53 + 4], so that the margin of the first
    array along the second axis is [2^53 + 3], which is not a float64. *)
Definition wide : list (ndarray Z) := empties (Z.to_nat (2 ^ 53 + 4)).

(** * Vocabulary of the properties *)

(** [m] has [n] rows of [r] cells each. *)
Definition is_matrix {X} (n r : nat) (m : list (list X)) : Prop :=
  length m = n ∧ Forall (λ row, length row = r) m.

(** Lines 154 and 159: [max_size], a matrix with a single row. *)
Definition max_size {A} (arrays : list (ndarray A)) : result (list (list Z)) :=
  shapes ← shape_matrix arrays;
  np_max_axis0 shapes.

(** The per-axis maximum, in the words of the specification: along every
    axis the extent bounds the extent of every array and is the extent of
    one of them. *)
Definition per_axis_max {A} (arrays : list (ndarray A)) (s : list nat) : Prop :=
  (∀ x, x ∈ arrays → length (shape x) = length s) ∧
  ∀ r m, s !! r = Some m →
    (∀ x, x ∈ arrays → ∃ d, shape x !! r = Some d ∧ (d ≤ m)%nat) ∧
    (∃ x, x ∈ arrays ∧ shape x !! r = Some m).

(** Every array has rank [R]. *)
Definition equal_rank {A} (R : nat) (arrays : list (ndarray A)) : Prop :=
  Forall (λ x, length (shape x) = R) arrays.

(** The specification that takes effect: [after] is read only when
    [before] is [None]. *)
Definition effective (before : option array_like) (after : array_like) : array_like :=
  match before with Some b => b | None => after end.

(** [f] can be broadcast to an [N] by [R] matrix: a scalar, one value per
    axis, or one row per array. *)
Definition broadcastable (N R : nat) (f : array_like) : Prop :=
  match f with
  | Scalar _ => True
  | Vector v => length v = R ∨ length v = 1%nat
  | Matrix m =>
      (length m = N ∨ length m = 1%nat) ∧
      (Forall (λ row, length row = R) m ∨ Forall (λ row, length row = 1%nat) m)
  end.

(** The fractions that [f] holds. *)
Definition entries (f : array_like) : list Q :=
  match f with
  | Scalar q => [q]
  | Vector v => v
  | Matrix m => concat m
  end.

(** The fraction of the margin padded before, for an entry [q] of the
    specification that takes effect (lines 156 and 158). *)
Definition fraction_of (before : option array_like) (q : Q) : Q :=
  match before with
  | Some _ => fadd (inject_Z 0) q
  | None => fsub (inject_Z 1) q
  end.

(** [q] lies in [0, 1]. *)
Definition in_unit (q : Q) : Prop := (0 <= q)%Q ∧ (q <= 1)%Q.

(** Every entry of [f] lies in [0, 1]. *)
Definition unit_fractions (f : array_like) : Prop := Forall in_unit (entries f).

(** [1 - f], entry by entry. *)
Definition one_minus (f : array_like) : array_like :=
  match f with
  | Scalar q => Scalar (1 - q)%Q
  | Vector v => Vector (map (λ q, (1 - q)%Q) v)
  | Matrix m => Matrix (map (map (λ q, (1 - q)%Q)) m)
  end.

(** The cell [(i, r)] of the plan [pad], given the margins [mg], the
    fractions [fr] and the rounding function. *)
Definition plan_cell (mg : list (list Z)) (fr : list (list Q)) (tie_break : Q → Q)
    (i r : nat) (p : Z * Z) : Prop :=
  ∃ mrow m frow f,
    mg !! i = Some mrow ∧ mrow !! r = Some m ∧
    fr !! i = Some frow ∧ frow !! r = Some f ∧
    p.1 = astype_int (tie_break (scaled_margin m f)) ∧
    p.2 = m - p.1.

(** The margin of array [i] along axis [r] is the target extent minus the
    array's own. *)
Definition margin_cell {A} (arrays : list (ndarray A)) (t : list Z)
    (i r : nat) (m : Z) : Prop :=
  ∃ x d mx, arrays !! i = Some x ∧ shape x !! r = Some d ∧
            t !! r = Some mx ∧ m = mx - Z.of_nat d.

(** Cell [(i, r)] of a computed matrix. *)
Definition cell {X} (m : result (list (list X))) (i r : nat) : option X :=
  match m with
  | Ok m => row ← m !! i; row !! r
  | Raise _ => None
  end.

(** [margin[i, r]], [before[i, r]] (line 156 or 158) and [pad[i, r]]. *)
Definition margin_at {A} (arrays : list (ndarray A)) (i r : nat) : option Z :=
  cell (shapes ← shape_matrix arrays; margins shapes) i r.
Definition fraction_at {A} (arrays : list (ndarray A))
    (before : option array_like) (after : array_like) (i r : nat) : option Q :=
  cell (shapes ← shape_matrix arrays; fractions shapes before after) i r.
Definition pad_at {A} (arrays : list (ndarray A))
    (before : option array_like) (after : array_like) (tie_break : Q → Q)
    (i r : nat) : option (Z * Z) :=
  cell (pad_widths arrays before after tie_break) i r.

(** No pad width of the row [w] is negative. *)
Definition nonneg_widths (w : list (Z * Z)) : Prop :=
  Forall (λ p, 0 ≤ p.1 ∧ 0 ≤ p.2) w.

(** The pad widths of a row as natural numbers. *)
Definition to_nat_widths (w : list (Z * Z)) : list (nat * nat) :=
  map (λ p : Z * Z, (Z.to_nat p.1, Z.to_nat p.2)) w.

(** What [np.pad] returns for non-negative widths, one pair per axis. *)
Definition padded {A} (value : A) (x : ndarray A) (w : list (Z * Z)) : ndarray A :=
  mk_ndarray (padded_shape (shape x) (to_nat_widths w))
    (pad_data value (shape x) (to_nat_widths w) (data x)).

(** [idx] lies in the block that holds the original data. *)
Fixpoint in_block (s : list nat) (w : list (nat * nat)) (idx : list nat) : bool :=
  match s, w, idx with
  | d :: s', (b, _) :: w', i :: idx' =>
      (b <=? i)%nat && (i <? b + d)%nat && in_block s' w' idx'
  | _, _, _ => true
  end.

(** Move an index of the original array to the padded array and back. *)
Definition shift (w : list (nat * nat)) (idx : list nat) : list nat :=
  zip_with (λ p i, (p.1 + i)%nat) w idx.
Definition unshift (w : list (nat * nat)) (idx : list nat) : list nat :=
  zip_with (λ p i, (i - p.1)%nat) w idx.

(** [tie_break] maps every integer to itself. *)
Definition integer_preserving (tie_break : Q → Q) : Prop :=
  ∀ q k, (q == inject_Z k)%Q → (tie_break q == inject_Z k)%Q.

(** [tie_break] never reverses the order of two values. *)
Definition monotone (tie_break : Q → Q) : Prop :=
  ∀ x y, (x <= y)%Q → (tie_break x <= tie_break y)%Q.

(** Every array has the shape [s]. *)
Definition same_shape {A} (s : list nat) (arrays : list (ndarray A)) : Prop :=
  Forall (λ x, shape x = s) arrays.

(** The shape a specification has for broadcasting: rows and columns. *)
Definition spec_dims (f : array_like) : nat * nat :=
  match f with
  | Scalar _ => (1, 1)%nat
  | Vector v => (1%nat, length v)
  | Matrix m => (length (as2d m), ncols (as2d m))
  end.

(** [x] is a float64 that is not negative: an integer of at most [2^53]
    times a power of two, the exponent not below that of the subnormals
    and the value within the range of float64. *)
Definition representable (x : Q) : Prop :=
  ∃ k e, 0 ≤ k ≤ 2 ^ 53 ∧ -1074 ≤ e ≤ 970 ∧ (x == inject_Z k * pow2 e)%Q.

(** Every margin is a float64, as every integer up to [2^53] is: its
    conversion to float64 on line 161 leaves it as it is. *)
Definition exact_margins {A} (arrays : list (ndarray A)) : Prop :=
  ∀ i r m, margin_at arrays i r = Some m → representable (inject_Z m).

(** * Lemmas *)

(** ** float64: rounding to the nearest value

    What the properties of the plan need of the arithmetic: rounding
    depends on the value only, it keeps a float64 as it is, and it does
    not cross a float64. *)

Lemma pow2_pos e : (0 < pow2 e)%Q.
Proof. by apply Qpower_0_lt. Qed.

Lemma pow2_add a b : (pow2 (a + b) == pow2 a * pow2 b)%Q.
Proof. by apply Qpower_plus. Qed.

Lemma pow2_Z e : 0 ≤ e → (pow2 e == inject_Z (2 ^ e))%Q.
Proof. intros He. unfold pow2. by rewrite Zpower_Qpower. Qed.

Lemma pow2_le a b : a ≤ b → (pow2 a <= pow2 b)%Q.
Proof. intros H. by apply Qpower_le_compat_l. Qed.

Lemma rint_le (x : Q) (j : Z) : (x <= inject_Z j)%Q → rint x ≤ j.
Proof.
  intros Hx. unfold rint.
  pose proof (Qfloor_le x) as Hf.
  assert (Qfloor x ≤ j) as Hfj.
  { rewrite Zle_Qle. by eapply Qle_trans. }
  assert ((1#2 <= x - inject_Z (Qfloor x))%Q → Qfloor x + 1 ≤ j) as Hup.
  { intros Hr. destruct (Z.eq_dec (Qfloor x) j) as [Heq|]; [|lia].
    exfalso. rewrite Heq in Hr.
    destruct x as [n d]. unfold Qle, Qminus, Qplus, Qopp, inject_Z in *.
    simpl in *. nia. }
  destruct (Qcompare_spec (x - inject_Z (Qfloor x)) (1#2)) as [He|Hl|Hg].
  - destruct (Z.even (Qfloor x)); [done|]. apply Hup. rewrite He. apply Qle_refl.
  - done.
  - apply Hup. by apply Qlt_le_weak.
Qed.

Lemma rint_ge (x : Q) (j : Z) : (inject_Z j <= x)%Q → j ≤ rint x.
Proof.
  intros Hx. unfold rint.
  assert (j ≤ Qfloor x) as Hfj.
  { rewrite <-(Qfloor_Z j). by apply Qfloor_resp_le. }
  repeat case_match; lia.
Qed.

Lemma rint_Z (x : Q) (j : Z) : (x == inject_Z j)%Q → rint x = j.
Proof.
  intros Hx. apply Z.le_antisymm.
  - apply rint_le. rewrite Hx. apply Qle_refl.
  - apply rint_ge. rewrite Hx. apply Qle_refl.
Qed.

Lemma pow2_sub a b : (pow2 (a - b) == pow2 a / pow2 b)%Q.
Proof. by apply Qpower_minus. Qed.

Lemma ilog2_spec (x : Q) :
  (0 < x)%Q → (pow2 (ilog2 x) <= x)%Q ∧ (x < pow2 (ilog2 x + 1))%Q.
Proof.
  intros Hx. destruct x as [n d].
  assert (0 < n) as Hn by (unfold Qlt in Hx; simpl in Hx; lia).
  pose proof (Z.log2_spec n Hn) as [Ha1 Ha2].
  pose proof (Z.log2_spec (Zpos d) eq_refl) as [Hb1 Hb2].
  pose proof (Z.log2_nonneg n) as Ha. pose proof (Z.log2_nonneg (Zpos d)) as Hb.
  unfold ilog2. cbn [Qnum Qden].
  set (a := Z.log2 n) in *. set (b := Z.log2 (Zpos d)) in *.
  assert (0 < 2 ^ a ∧ 0 < 2 ^ b) as [Hpa Hpb] by (split; apply Z.pow_pos_nonneg; lia).
  assert (2 ^ Z.succ a = 2 * 2 ^ a ∧ 2 ^ Z.succ b = 2 * 2 ^ b) as [Hsa Hsb]
    by (split; apply Z.pow_succ_r; lia).
  destruct (Qle_bool (pow2 (a - b)) (n # d)) eqn:Hle.
  - split; [by apply Qle_bool_iff|].
    replace (a - b + 1) with (Z.succ a - b) by lia.
    rewrite pow2_sub, !pow2_Z by lia.
    apply Qlt_shift_div_l; [unfold Qlt; simpl; lia|].
    unfold Qlt, Qmult. simpl. nia.
  - split.
    + replace (a - b - 1) with (a - Z.succ b) by lia.
      rewrite pow2_sub, !pow2_Z by lia.
      apply Qle_shift_div_r; [unfold Qlt; simpl; lia|].
      unfold Qle, Qmult. simpl. nia.
    + replace (a - b - 1 + 1) with (a - b) by lia.
      apply Qnot_le_lt. intros H. apply Qle_bool_iff in H. congruence.
Qed.

Lemma round64_proper (x y : Q) : (x == y)%Q → round64 x = round64 y.
Proof. intros H. unfold round64. by rewrite (Qred_complete x y H). Qed.

Lemma round64_0 (x : Q) : (x == 0)%Q → round64 x = 0%Q.
Proof. intros H. by rewrite (round64_proper x 0 H). Qed.

Lemma grid_le (x : Q) (e j : Z) :
  (x <= inject_Z j * pow2 e)%Q →
  (inject_Z (rint (x / pow2 e)) * pow2 e <= inject_Z j * pow2 e)%Q.
Proof.
  intros H. apply Qmult_le_compat_r; [|apply Qlt_le_weak, pow2_pos].
  rewrite <-Zle_Qle. apply rint_le.
  apply Qle_shift_div_r; [apply pow2_pos|done].
Qed.

Lemma grid_ge (x : Q) (e j : Z) :
  (inject_Z j * pow2 e <= x)%Q →
  (inject_Z j * pow2 e <= inject_Z (rint (x / pow2 e)) * pow2 e)%Q.
Proof.
  intros H. apply Qmult_le_compat_r; [|apply Qlt_le_weak, pow2_pos].
  rewrite <-Zle_Qle. apply rint_ge.
  apply Qle_shift_div_l; [apply pow2_pos|done].
Qed.

Lemma round64_pos_eq (x : Q) :
  (0 < x)%Q →
  ∃ x', (x' == x)%Q ∧
    round64 x = (inject_Z (rint (x' / pow2 (ulp_exp x'))) * pow2 (ulp_exp x'))%Q ∧
    (-1074 ≤ ulp_exp x') ∧
    (-1074 < ulp_exp x' → (pow2 (ulp_exp x' + 52) <= x')%Q).
Proof.
  intros Hx. exists (Qred x).
  pose proof (Qred_correct x) as Hx'.
  assert (0 < Qred x)%Q as Hpos by (by rewrite Hx').
  split_and!.
  - done.
  - unfold round64. cbv zeta.
    destruct (Qeq_bool (Qred x) 0) eqn:H0; [|done].
    apply Qeq_bool_eq in H0. rewrite H0 in Hpos. by apply Qlt_irrefl in Hpos.
  - unfold ulp_exp. lia.
  - unfold ulp_exp. intros He.
    assert (0 < Qabs (Qred x))%Q as Habs.
    { rewrite Qabs_pos; [done|by apply Qlt_le_weak]. }
    destruct (ilog2_spec _ Habs) as [Hlo _].
    rewrite Qabs_pos in Hlo at 2 by (by apply Qlt_le_weak).
    replace (Z.max (ilog2 (Qabs (Qred x)) - 52) (-1074) + 52)
      with (ilog2 (Qabs (Qred x))) by lia.
    done.
Qed.

Lemma representable_grid (B : Q) (e : Z) :
  representable B →
  (∃ j, (B == inject_Z j * pow2 e)%Q) ∨
  (-1074 < e ∧ (B <= pow2 (e + 52))%Q).
Proof.
  intros (k & e0 & Hk & He0 & HB).
  destruct (Z.le_gt_cases e e0) as [Hle|Hgt].
  - left. exists (k * 2 ^ (e0 - e)).
    rewrite HB. replace e0 with ((e0 - e) + e) at 1 by lia.
    rewrite pow2_add, pow2_Z, inject_Z_mult by lia. ring.
  - right. split; [lia|]. rewrite HB.
    apply Qle_trans with (inject_Z (2 ^ 53) * pow2 e0)%Q.
    + apply Qmult_le_compat_r; [|apply Qlt_le_weak, pow2_pos].
      rewrite <-Zle_Qle. lia.
    + rewrite <-pow2_Z, <-pow2_add by lia. apply pow2_le. lia.
Qed.

Lemma round64_le_repr (x B : Q) :
  (0 < x)%Q → (x <= B)%Q → representable B → (round64 x <= B)%Q.
Proof.
  intros Hx HxB HB.
  destruct (round64_pos_eq x Hx) as (x' & Hx' & -> & He & Hlo).
  rewrite <-Hx' in HxB.
  destruct (representable_grid B (ulp_exp x') HB) as [[j Hj]|[He' Hup]].
  - rewrite Hj in *. by apply grid_le.
  - specialize (Hlo He').
    assert (pow2 (ulp_exp x' + 52) == inject_Z (2 ^ 52) * pow2 (ulp_exp x'))%Q as Hp.
    { rewrite Z.add_comm, pow2_add, pow2_Z by lia. reflexivity. }
    apply Qle_trans with (inject_Z (2 ^ 52) * pow2 (ulp_exp x'))%Q.
    + apply grid_le. rewrite <-Hp. by eapply Qle_trans.
    + rewrite <-Hp. by eapply Qle_trans.
Qed.

Lemma round64_ge_repr (x B : Q) :
  (0 < x)%Q → (B <= x)%Q → representable B → (B <= round64 x)%Q.
Proof.
  intros Hx HxB HB.
  destruct (round64_pos_eq x Hx) as (x' & Hx' & -> & He & Hlo).
  rewrite <-Hx' in HxB.
  destruct (representable_grid B (ulp_exp x') HB) as [[j Hj]|[He' Hup]].
  - rewrite Hj in *. by apply grid_ge.
  - specialize (Hlo He').
    assert (pow2 (ulp_exp x' + 52) == inject_Z (2 ^ 52) * pow2 (ulp_exp x'))%Q as Hp.
    { rewrite Z.add_comm, pow2_add, pow2_Z by lia. reflexivity. }
    apply Qle_trans with (inject_Z (2 ^ 52) * pow2 (ulp_exp x'))%Q.
    + by rewrite <-Hp.
    + apply grid_ge. by rewrite <-Hp.
Qed.

Lemma representable_0 : representable 0.
Proof. exists 0, 0. split_and!; [lia..|reflexivity]. Qed.

Lemma representable_Z (z : Z) : 0 ≤ z ≤ 2 ^ 53 → representable (inject_Z z).
Proof. intros Hz. exists z, 0. split_and!; [lia..|]. unfold pow2. simpl. ring. Qed.

Lemma representable_half (z : Z) : 0 ≤ z ≤ 2 ^ 53 → representable (z # 2).
Proof.
  intros Hz. exists z, (-1). split_and!; [lia..|].
  unfold Qeq, Qmult, pow2. simpl. lia.
Qed.

Lemma round64_nonneg (x : Q) : (0 <= x)%Q → (0 <= round64 x)%Q.
Proof.
  intros Hx. apply Qle_lteq in Hx as [Hx|Hx].
  - apply round64_ge_repr; [done|by apply Qlt_le_weak|apply representable_0].
  - rewrite round64_0 by (by symmetry). apply Qle_refl.
Qed.

Lemma round64_le (x B : Q) :
  (x <= B)%Q → (0 <= x)%Q → representable B → (round64 x <= B)%Q.
Proof.
  intros HxB Hx HB. apply Qle_lteq in Hx as [Hx|Hx].
  - by apply round64_le_repr.
  - rewrite round64_0 by (by symmetry). by rewrite Hx.
Qed.

Lemma round64_repr (B : Q) : representable B → (round64 B == B)%Q.
Proof.
  intros HB.
  assert (0 <= B)%Q as H0.
  { destruct HB as (k & e & Hk & _ & ->).
    apply Qmult_le_0_compat; [|apply Qlt_le_weak, pow2_pos].
    change 0%Q with (inject_Z 0). rewrite <-Zle_Qle. lia. }
  apply Qle_lteq in H0 as [H0|H0].
  - apply Qle_antisym.
    + apply round64_le_repr; [done|apply Qle_refl|done].
    + apply round64_ge_repr; [done|apply Qle_refl|done].
  - rewrite round64_0 by (by symmetry). done.
Qed.


Lemma representable_Qeq (x y : Q) : (x == y)%Q → representable x → representable y.
Proof. intros Hxy (k & e & Hk & He & Hx). exists k, e. by rewrite <-Hxy. Qed.

Lemma in_unit_round64 (x : Q) : in_unit x → in_unit (round64 x).
Proof.
  intros [H0 H1]. split; [by apply round64_nonneg|].
  apply round64_le; [done..|]. by apply (representable_Z 1).
Qed.

Lemma astype_float_Z (m : Z) :
  0 ≤ m ≤ 2 ^ 53 → (astype_float (inject_Z m) == inject_Z m)%Q.
Proof. intros Hm. by apply round64_repr, representable_Z. Qed.

(** The product of line 161 is exact when the margin is at most [2^53]
    and both the fraction and the exact product are float64 values. *)
Lemma scaled_margin_exact (m : Z) (f : Q) :
  0 ≤ m ≤ 2 ^ 53 → representable f → representable (inject_Z m * f) →
  (scaled_margin m f == inject_Z m * f)%Q.
Proof.
  intros Hm Hf Hp. unfold scaled_margin, fmul.
  assert (astype_float (inject_Z m) * astype_float f == inject_Z m * f)%Q as Harg.
  { rewrite (astype_float_Z m Hm). unfold astype_float.
    by rewrite (round64_repr f Hf). }
  rewrite (round64_proper _ _ Harg). by apply round64_repr.
Qed.

(** With a fraction in [0, 1] and a margin that is a float64 the product
    of line 161 lies between 0 and the margin. *)
Lemma scaled_margin_bounds (m : Z) (f : Q) :
  0 ≤ m → representable (inject_Z m) → in_unit f →
  (0 <= scaled_margin m f)%Q ∧ (scaled_margin m f <= inject_Z m)%Q.
Proof.
  intros Hm Hrep Hf. apply in_unit_round64 in Hf as [H0 H1].
  fold (astype_float f) in *.
  pose proof (round64_repr _ Hrep) as Hmf. fold (astype_float (inject_Z m)) in Hmf.
  assert (0 <= inject_Z m)%Q as Hm0.
  { change 0%Q with (inject_Z 0). rewrite <-Zle_Qle. lia. }
  assert (0 <= astype_float (inject_Z m) * astype_float f)%Q as Hlo.
  { rewrite Hmf. by apply Qmult_le_0_compat. }
  unfold scaled_margin, fmul. split.
  - by apply round64_nonneg.
  - apply round64_le; [|done|done].
    rewrite Hmf. rewrite <-(Qmult_1_r (inject_Z m)) at 2.
    apply Qmult_le_compat_nonneg; split; (done || apply Qle_refl).
Qed.

Lemma scaled_margin_0 (f : Q) : scaled_margin 0 f = 0%Q.
Proof.
  unfold scaled_margin, fmul. apply round64_0.
  change (astype_float (inject_Z 0)) with 0%Q. ring.
Qed.

(** ** The exception monad *)

Lemma bind_Ok {A B} (m : result A) (f : A → result B) b :
  m ≫= f = Ok b ↔ ∃ a, m = Ok a ∧ f a = Ok b.
Proof. destruct m; simpl; split; [eauto| |discriminate|]; intros (? & ? & ?); congruence. Qed.

Ltac inv_Ok :=
  repeat match goal with
  | H : _ ≫= _ = Ok _ |- _ => apply bind_Ok in H; destruct H as (? & ? & H)
  | H : Ok _ = Ok _ |- _ => injection H as H
  | H : Raise _ = Ok _ |- _ => discriminate H
  end.

Lemma mapM_result_Ok {A B} (f : A → result B) l k :
  mapM_result f l = Ok k ↔ Forall2 (λ x y, f x = Ok y) l k.
Proof.
  revert k. induction l as [|x l IH]; intros k; simpl.
  - split; [intros [= <-]; constructor | by inversion 1].
  - split.
    + intros H. inv_Ok. subst. constructor; [done|]. by apply IH.
    + inversion 1 as [|? y ? k' Hy Hk]; subst. rewrite Hy. simpl.
      apply IH in Hk. by rewrite Hk.
Qed.

Lemma mapM_zip_Ok {A B C} (f : A → B → result C) (g : A → B → C) l k :
  Forall2 (λ x w, f x w = Ok (g x w)) l k →
  mapM_result (λ xw, f xw.1 xw.2) (zip l k) = Ok (zip_with g l k).
Proof.
  induction 1 as [|x w l k Hxw _ IH]; simpl; [done|].
  by rewrite Hxw, IH.
Qed.

Lemma mapM_result_Raise {A B} (f : A → result B) l e :
  mapM_result f l = Raise e → ∃ x, x ∈ l ∧ f x = Raise e.
Proof.
  induction l as [|x l IH]; simpl; [discriminate|].
  destruct (f x) eqn:Hx; simpl.
  - destruct (mapM_result f l); simpl; [discriminate|].
    intros [= ->]. destruct IH as (y & ? & ?); [done|].
    exists y. split; [by right | done].
  - intros [= ->]. exists x. split; [by left | done].
Qed.

(** ** Broadcasting *)

Section broadcasting.
Context {S T U : Type}.
Implicit Types (op : S → T → U).

Lemma bc_same n : bc n n = Ok n.
Proof. unfold bc. by rewrite Nat.eqb_refl. Qed.

Lemma bc_one_r n : bc n 1 = Ok n.
Proof. unfold bc. destruct (Nat.eqb_spec n 1); [done|]. done. Qed.

Lemma bc_one_l n : bc 1 n = Ok n.
Proof. unfold bc. destruct (Nat.eqb_spec 1 n); [by subst|]. done. Qed.

Lemma length_stretch {X} n (l : list X) :
  length l = n ∨ length l = 1%nat → length (stretch n l) = n.
Proof.
  destruct l as [|x [|y l]]; simpl; rewrite ?length_replicate; try done;
    intros [?|?]; done.
Qed.

Lemma stretch_lookup_bc {X} n (l : list X) i x :
  stretch n l !! i = Some x → lookup_bc l i = Some x.
Proof.
  destruct l as [|y [|z l]]; simpl; try done.
  by intros [-> _]%lookup_replicate.
Qed.

Lemma lookup_bc_lt {X} (l : list X) i :
  (i < length l)%nat → lookup_bc l i = l !! i.
Proof. destruct l as [|y [|z l]]; simpl; try done. by destruct i; [|lia]. Qed.

Lemma stretch_fmap {X Y} (f : X → Y) n (l : list X) :
  stretch n (f <$> l) = f <$> stretch n l.
Proof. destruct l as [|x [|y l]]; simpl; try done. by rewrite fmap_replicate. Qed.

Lemma as2d_ne {X} (m : list (list X)) : m ≠ [] → as2d m = m.
Proof. by destruct m. Qed.

Lemma ncols_matrix {X} n r (m : list (list X)) :
  is_matrix n r m → (0 < length m)%nat → ncols m = r.
Proof.
  intros [Hn Hr]. destruct m as [|row m]; simpl in *; [lia|].
  intros _. by inversion Hr.
Qed.

Lemma bc_inv x y k :
  bc x y = Ok k → (x = k ∨ x = 1%nat) ∧ (y = k ∨ y = 1%nat).
Proof.
  unfold bc. repeat case_match; intros [= <-];
    repeat match goal with H : (_ =? _)%nat = true |- _ => apply Nat.eqb_eq in H end;
    lia.
Qed.

Lemma length_as2d {X} (m : list (list X)) : (0 < length (as2d m))%nat.
Proof. destruct m; simpl; lia. Qed.

(** If the axis lengths are compatible the operation succeeds, and the
    result has the broadcast shape. *)
Lemma broadcast2_is_matrix op n1 r1 n2 r2 n r a b :
  is_matrix n1 r1 (as2d a) → is_matrix n2 r2 (as2d b) →
  bc n1 n2 = Ok n → bc r1 r2 = Ok r →
  ∃ m, broadcast2 op a b = Ok m ∧ is_matrix n r m.
Proof.
  intros Ha Hb Hn Hr. unfold broadcast2.
  pose proof (length_as2d a) as Hn1. pose proof (length_as2d b) as Hn2.
  destruct Ha as [Hla Ha], Hb as [Hlb Hb].
  rewrite (ncols_matrix n1 r1 (as2d a)), (ncols_matrix n2 r2 (as2d b))
    by (done || lia).
  rewrite Hla, Hlb, Hn, Hr. simpl.
  eexists; split; [done|].
  apply bc_inv in Hn as [Hn1' Hn2'], Hr as [Hr1' Hr2'].
  split.
  - rewrite length_zip_with, !length_stretch by lia. lia.
  - apply Forall_lookup. intros i row Hi.
    apply lookup_zip_with_Some in Hi as (ra & rb & -> & Hra & Hrb).
    assert (Hrow : ∀ X k (l : list (list X)) c row,
      Forall (λ row, length row = c) l → stretch k l !! i = Some row →
      length row = c).
    { intros X k l c row Hl Hrow. apply stretch_lookup_bc in Hrow.
      destruct l as [|x [|y l]]; simpl in *; [done| |].
      - injection Hrow as <-. by inversion Hl.
      - by eapply Forall_lookup_1 in Hl. }
    apply (Hrow _ _ _ _ _ Ha) in Hra. apply (Hrow _ _ _ _ _ Hb) in Hrb.
    rewrite length_zip_with, !length_stretch by lia. lia.
Qed.

(** Every cell of the result is [op] applied to the cells of the two
    operands found at the same position, or at position 0 along an axis
    of length one. *)
Lemma broadcast2_lookup op a b m i j row u :
  broadcast2 op a b = Ok m → m !! i = Some row → row !! j = Some u →
  ∃ ra rb s t,
    lookup_bc (as2d a) i = Some ra ∧ lookup_bc ra j = Some s ∧
    lookup_bc (as2d b) i = Some rb ∧ lookup_bc rb j = Some t ∧
    u = op s t.
Proof.
  unfold broadcast2. intros H Hi Hj. inv_Ok. subst m.
  apply lookup_zip_with_Some in Hi as (ra & rb & -> & Hra & Hrb).
  apply lookup_zip_with_Some in Hj as (s & t & -> & Hs & Ht).
  exists ra, rb, s, t. eauto 10 using stretch_lookup_bc.
Qed.

End broadcasting.

Lemma as2d_fmap {X Y} (f : X → Y) (m : list (list X)) :
  as2d (map (map f) m) = map (map f) (as2d m).
Proof. by destruct m. Qed.

Lemma ncols_fmap {X Y} (f : X → Y) (m : list (list X)) :
  ncols (map (map f) m) = ncols m.
Proof. destruct m; simpl; [done|]. by rewrite length_map. Qed.

(** Mapping a function over an operand commutes with broadcasting. *)
Lemma broadcast2_fmap {S S' T T' U} (op : S' → T' → U) (f : S → S') (g : T → T') a b :
  broadcast2 op (map (map f) a) (map (map g) b)
  = broadcast2 (λ x y, op (f x) (g y)) a b.
Proof.
  unfold broadcast2. rewrite !as2d_fmap, !length_map, !ncols_fmap.
  destruct (bc (length (as2d a)) (length (as2d b))) as [n|]; simpl; [|done].
  destruct (bc (ncols (as2d a)) (ncols (as2d b))) as [r|]; simpl; [|done].
  f_equal. change (map (map f)) with (fmap (M:=list) (map f)).
  change (map (map g)) with (fmap (M:=list) (map g)).
  rewrite !stretch_fmap, zip_with_fmap_l, zip_with_fmap_r.
  apply zip_with_ext; [|done..]. intros ra rb.
  change (map f ra) with (f <$> ra). change (map g rb) with (g <$> rb).
  by rewrite !stretch_fmap, zip_with_fmap_l, zip_with_fmap_r.
Qed.

(** ** The shape matrix and the target shape *)

Section shapes.
Context {A : Type}.
Implicit Types (arrays : list (ndarray A)) (x : ndarray A).

Lemma np_array_Ok {X} (rows m : list (list X)) :
  np_array rows = Ok m ↔ m = rows ∧ Forall (λ r, length r = ncols rows) rows.
Proof.
  assert (Forall (λ r, length r = ncols rows) rows ↔
          forallb (λ r, (length r =? ncols rows)%nat) rows = true) as ->.
  { rewrite <-Is_true_true, forallb_True. apply Forall_proper; [|done].
    intros r. by rewrite Is_true_true, Nat.eqb_eq. }
  unfold np_array. destruct (forallb _ rows).
  - split; [by intros [= <-] | by intros [-> _]].
  - split; [done | by intros [_ ?]].
Qed.

Lemma np_array_is_matrix {X} n r (rows : list (list X)) :
  is_matrix n r rows → np_array rows = Ok rows.
Proof.
  intros [Hn Hr]. apply np_array_Ok. split; [done|].
  destruct rows as [|row rows]; [done|]. simpl.
  inversion Hr; subst. done.
Qed.

Lemma shape_matrix_equal_rank R arrays :
  equal_rank R arrays →
  shape_matrix arrays = Ok (map (λ x, map Z.of_nat (shape x)) arrays) ∧
  is_matrix (length arrays) R (map (λ x, map Z.of_nat (shape x)) arrays).
Proof.
  intros HR.
  assert (is_matrix (length arrays) R (map (λ x, map Z.of_nat (shape x)) arrays)) as Hm.
  { split; [by rewrite length_map|]. apply Forall_fmap.
    eapply Forall_impl; [done|]. intros x Hx. cbn. by rewrite length_map. }
  split; [|done]. by eapply np_array_is_matrix.
Qed.

Lemma shape_matrix_Ok arrays shapes :
  shape_matrix arrays = Ok shapes →
  shapes = map (λ x, map Z.of_nat (shape x)) arrays ∧
  ∃ R, equal_rank R arrays ∧ is_matrix (length arrays) R shapes.
Proof.
  intros [-> Hr]%np_array_Ok. split; [done|].
  exists (ncols (map (λ x, map Z.of_nat (shape x)) arrays)).
  assert (equal_rank (ncols (map (λ x, map Z.of_nat (shape x)) arrays)) arrays) as HR.
  { apply Forall_fmap in Hr. eapply Forall_impl; [done|].
    intros x Hx. cbn in Hx. by rewrite length_map in Hx. }
  split; [done|]. by apply shape_matrix_equal_rank.
Qed.

Lemma foldl_max_length R (r : list Z) rs :
  length r = R → Forall (λ row, length row = R) rs →
  length (foldl (zip_with Z.max) r rs) = R.
Proof.
  revert r. induction rs as [|r' rs IH]; intros r Hr Hrs; simpl; [done|].
  inversion Hrs; subst. apply IH; [|done]. rewrite length_zip_with. lia.
Qed.

Lemma foldl_max_lookup (r : list Z) rs j t :
  foldl (zip_with Z.max) r rs !! j = Some t →
  (∀ row, row ∈ r :: rs → ∃ v, row !! j = Some v ∧ v ≤ t) ∧
  (∃ row, row ∈ r :: rs ∧ row !! j = Some t).
Proof.
  revert r. induction rs as [|r' rs IH]; intros r; simpl.
  - intros Hj. split.
    + intros row ->%list_elem_of_singleton. exists t. split; [done|lia].
    + exists r. split; [by left | done].
  - intros (Hle & row & Hrow & Hatt)%IH.
    destruct (Hle (zip_with Z.max r r')) as (v0 & Hv0 & Hv0t); [by left|].
    apply lookup_zip_with_Some in Hv0 as (a & b & -> & Ha & Hb).
    split.
    + intros row' [->|[->|Hin]%elem_of_cons]%elem_of_cons.
      * exists a. split; [done|lia].
      * exists b. split; [done|lia].
      * apply Hle. by right.
    + apply elem_of_cons in Hrow as [->|Hin].
      * apply lookup_zip_with_Some in Hatt as (a' & b' & -> & Ha' & Hb').
        destruct (Z.max_spec a' b') as [[_ ->]|[_ ->]].
        -- exists r'. split; [right; by left | done].
        -- exists r. split; [by left | done].
      * exists row. split; [by do 2 right | done].
Qed.

End shapes.

(** ** The padding plan *)

Section plan.
Context {A : Type}.
Implicit Types (arrays : list (ndarray A)) (x : ndarray A).
Implicit Types (tie_break : Q → Q).

Lemma lookup_bc_matrix {X} n r (m : list (list X)) i j row :
  is_matrix n r m → (i < n)%nat → (j < r)%nat →
  lookup_bc (as2d m) i = Some row →
  m !! i = Some row ∧ lookup_bc row j = row !! j.
Proof.
  intros [Hn Hr] Hi Hj. rewrite as2d_ne by (intros ->; simpl in *; lia).
  rewrite lookup_bc_lt by lia. intros Hrow. split; [done|].
  eapply Forall_lookup_1 in Hr; [|done]. apply lookup_bc_lt. lia.
Qed.

(** Lines 159-160 on a rectangular shape matrix: the margin of array [i]
    along axis [j] is the maximal extent along [j] minus its own. *)
Lemma margins_spec N R (shapes : list (list Z)) :
  is_matrix N R shapes → (0 < N)%nat →
  ∃ t mg,
    np_max_axis0 shapes = Ok [t] ∧ length t = R ∧
    margins shapes = Ok mg ∧ is_matrix N R mg ∧
    ∀ i j mrow m, mg !! i = Some mrow → mrow !! j = Some m →
      ∃ srow d mx, shapes !! i = Some srow ∧ srow !! j = Some d ∧
                   t !! j = Some mx ∧ m = mx - d.
Proof.
  intros Hs HN. pose proof Hs as [Hlen Hrows].
  destruct shapes as [|r rs]; [simpl in *; lia|].
  set (t := foldl (zip_with Z.max) r rs).
  assert (length t = R) as Ht.
  { inversion Hrows; subst. by apply foldl_max_length. }
  destruct (broadcast2_is_matrix Z.sub 1 R N R N R [t] (r :: rs))
    as (mg & Hmg & Hmat); [by repeat constructor|done|apply bc_one_l|apply bc_same|].
  exists t, mg. unfold margins. simpl. fold t. rewrite Hmg.
  do 4 (split; [done|]).
  intros i j mrow m Hi Hj.
  destruct (broadcast2_lookup _ _ _ _ _ _ _ _ Hmg Hi Hj)
    as (ra & rb & mx & d & Hra & Hmx & Hrb & Hd & ->).
  simpl in Hra. injection Hra as <-.
  assert (i < N)%nat by (destruct Hmat as [<- _]; by eapply lookup_lt_Some).
  assert (j < R)%nat.
  { destruct Hmat as [_ Hmat]. eapply Forall_lookup_1 in Hmat; [|done].
    rewrite <-Hmat. by eapply lookup_lt_Some. }
  destruct (lookup_bc_matrix N R (r :: rs) i j rb) as [Hrb' Hjb]; [done..|].
  rewrite Hjb in Hd. rewrite lookup_bc_lt in Hmx by lia.
  eauto 10.
Qed.

(** What [pad_widths] returns, cell by cell: the before count is the
    margin times the fraction, rounded by [tie_break] and cast to an
    integer; the after count is what is left of the margin. *)
Lemma pad_widths_inv arrays before after tie_break pad :
  pad_widths arrays before after tie_break = Ok pad →
  ∃ shapes fr mg,
    shape_matrix arrays = Ok shapes ∧
    fractions shapes before after = Ok fr ∧
    margins shapes = Ok mg ∧
    ∀ i j row p, pad !! i = Some row → row !! j = Some p →
      ∃ mrow m frow f,
        lookup_bc (as2d mg) i = Some mrow ∧ lookup_bc mrow j = Some m ∧
        lookup_bc (as2d fr) i = Some frow ∧ lookup_bc frow j = Some f ∧
        p.1 = astype_int (tie_break (scaled_margin m f)) ∧
        p.2 = m - p.1.
Proof.
  unfold pad_widths. intros H. inv_Ok.
  rename x into shapes, x0 into fr, x1 into mg, x2 into scaled, x3 into pad_after.
  exists shapes, fr, mg. do 3 (split; [done|]).
  intros i j row p Hi Hj. subst pad.
  apply lookup_zip_with_Some in Hi as (rb & ra & -> & Hrb & Hra).
  apply lookup_zip_with_Some in Hj as (b & a & -> & Hb & Ha). simpl.
  pose proof Hrb as Hrb0. pose proof Hb as Hb0.
  rewrite list_lookup_fmap in Hrb.
  destruct (scaled !! i) as [srow|] eqn:Hsrow; [|done].
  injection Hrb as <-. rewrite list_lookup_fmap in Hb.
  destruct (srow !! j) as [sc|] eqn:Hsc; [|done]. injection Hb as <-.
  destruct (broadcast2_lookup _ _ _ _ _ _ _ _ H3 Hsrow Hsc)
    as (mrow & frow & m & f & Hmrow & Hm & Hfrow & Hf & ->).
  destruct (broadcast2_lookup _ _ _ _ _ _ _ _ H4 Hra Ha)
    as (mrow' & rb' & m' & b' & Hmrow' & Hm' & Hrb' & Hb' & ->).
  assert (mrow' = mrow) as -> by congruence.
  assert (m' = m) as -> by congruence.
  rewrite as2d_ne in Hrb' by (intros Heq; by rewrite Heq in Hrb0).
  rewrite lookup_bc_lt in Hrb' by (by eapply lookup_lt_Some).
  rewrite Hrb0 in Hrb'. injection Hrb' as <-.
  rewrite lookup_bc_lt in Hb' by (by eapply lookup_lt_Some).
  rewrite Hb0 in Hb'. injection Hb' as <-.
  eauto 10.
Qed.

End plan.

(** ** Fractions *)

Lemma broadcast2_fmap_l {S S' T U} (op : S' → T → U) (f : S → S') a b :
  broadcast2 op (map (map f) a) b = broadcast2 (λ x y, op (f x) y) a b.
Proof.
  assert (map (map id) b = b) as Hb.
  { induction b as [|row b IH]; simpl; [done|]. by rewrite IH, map_id. }
  rewrite <-Hb at 1. by rewrite broadcast2_fmap.
Qed.

Lemma Qplus_0_l_eq (q : Q) : (inject_Z 0 + q)%Q = q.
Proof.
  destruct q as [n d]. unfold Qplus, inject_Z. simpl. f_equal. lia.
Qed.

Lemma astype_int_inject_Z z : astype_int (inject_Z z) = z.
Proof. unfold astype_int. simpl. apply Z.quot_1_r. Qed.

Lemma in_unit_plus_0 q : in_unit q → in_unit (fadd (inject_Z 0) q).
Proof. intros Hq. apply in_unit_round64. by rewrite Qplus_0_l_eq. Qed.

Lemma in_unit_one_minus q : in_unit q → in_unit (fsub (inject_Z 1) q).
Proof.
  intros Hq. apply in_unit_round64. revert Hq. destruct q as [n d].
  unfold in_unit, Qle, Qminus, Qplus, Qopp, inject_Z. simpl. lia.
Qed.

(** The floor of a fraction of a margin that is a float64 lies between 0
    and the margin. *)
Lemma floor_fraction_bounds (m : Z) (f : Q) :
  0 ≤ m → representable (inject_Z m) → in_unit f →
  0 ≤ astype_int (np_floor (scaled_margin m f)) ≤ m.
Proof.
  intros Hm Hrep Hf. unfold np_floor. rewrite astype_int_inject_Z.
  destruct (scaled_margin_bounds m f Hm Hrep Hf) as [H0 H1]. split.
  - change 0 with (Qfloor 0). by apply Qfloor_resp_le.
  - rewrite <-(Qfloor_Z m) at 2. by apply Qfloor_resp_le.
Qed.

Lemma lookup_bc_elem_of {X} (l : list X) i x : lookup_bc l i = Some x → x ∈ l.
Proof.
  destruct l as [|y [|z l]]; simpl; [done| |].
  - intros [= ->]. by left.
  - apply list_elem_of_lookup_2.
Qed.

Lemma asarray_broadcastable N R f :
  (0 < N)%nat → broadcastable N R f →
  ∃ b n2 r2, asarray f = Ok b ∧ is_matrix n2 r2 (as2d b) ∧
             bc N n2 = Ok N ∧ bc R r2 = Ok R ∧
             ∀ P, Forall P (entries f) → Forall (Forall P) (as2d b).
Proof.
  intros HN. destruct f as [q|v|m]; cbn [asarray broadcastable entries].
  - intros _. exists [[q]], 1%nat, 1%nat.
    split_and!; [done|by repeat constructor|apply bc_one_r..|].
    intros P HP. by constructor.
  - intros Hv. exists [v], 1%nat, (length v).
    split_and!; [done|by repeat constructor|apply bc_one_r| |].
    + destruct Hv as [-> | ->]; [apply bc_same|apply bc_one_r].
    + intros P HP. by constructor.
  - intros [Hn Hr].
    assert (m ≠ []) by (intros ->; simpl in *; lia).
    exists m, (length m), (ncols m). rewrite as2d_ne by done.
    assert (Forall (λ row, length row = ncols m) m ∧ bc R (ncols m) = Ok R) as [Hrect Hbc].
    { destruct m as [|row m]; [done|]. simpl.
      destruct Hr as [Hr|Hr]; pose proof Hr as [Hrow _]%Forall_cons; rewrite Hrow.
      - split; [done|apply bc_same].
      - split; [done|apply bc_one_r]. }
    split_and!; [by apply np_array_Ok|done| |done|].
    + destruct Hn as [-> | ->]; [apply bc_same|apply bc_one_r].
    + intros P. apply Forall_concat.
Qed.

Lemma in_unit_fraction_of before q : in_unit q → in_unit (fraction_of before q).
Proof. destruct before; [apply in_unit_plus_0 | apply in_unit_one_minus]. Qed.

(** Lines 155-158 for a broadcastable specification: an [N] by [R]
    matrix whose cells are made from the entries of the specification. *)
Lemma fractions_spec N R (shapes : list (list Z)) before after :
  is_matrix N R shapes → (0 < N)%nat →
  broadcastable N R (effective before after) →
  ∃ fr, fractions shapes before after = Ok fr ∧ is_matrix N R fr ∧
        ∀ i r frow f, fr !! i = Some frow → frow !! r = Some f →
          ∃ q, q ∈ entries (effective before after) ∧ f = fraction_of before q.
Proof.
  intros Hs HN Hb.
  destruct (asarray_broadcastable N R _ HN Hb)
    as (b & n2 & r2 & Hasb & Hmb & Hbn & Hbr & Hent).
  assert (∀ c : Z, is_matrix N R (as2d (map (map (λ _ : Z, c)) shapes))) as Hconst.
  { intros c. destruct Hs as [Hlen Hrows].
    rewrite as2d_ne by (destruct shapes; simpl in *; [lia|done]).
    split; [by rewrite length_map|]. apply Forall_fmap.
    eapply Forall_impl; [done|]. intros row Hrow. cbn. by rewrite length_map. }
  assert (∀ (op : Q → Q) (a : list (list Z)) fr,
    broadcast2 (λ _ q, op q) a b = Ok fr →
    ∀ i r frow f, fr !! i = Some frow → frow !! r = Some f →
      ∃ q, q ∈ entries (effective before after) ∧ f = op q) as Hcells.
  { intros op a fr Hfr i r frow f Hi Hr.
    destruct (broadcast2_lookup _ _ _ _ _ _ _ _ Hfr Hi Hr)
      as (ra & rb & s & t & _ & _ & Hrb & Ht & ->).
    exists t. split; [|done]. apply lookup_bc_elem_of in Hrb, Ht.
    specialize (Hent (λ q, q ∈ entries (effective before after))).
    eapply Forall_forall in Hent; [| |done].
    - by eapply Forall_forall in Hent.
    - by apply Forall_forall. }
  destruct before as [before|]; simpl in *; rewrite Hasb; simpl.
  - destruct (broadcast2_is_matrix (λ z q, fadd (inject_Z z) q) _ _ _ _ _ _
                (zeros_like shapes) b (Hconst 0) Hmb Hbn Hbr) as (fr & Hfr & Hmat).
    exists fr. split_and!; [done..|].
    unfold zeros_like in Hfr. rewrite broadcast2_fmap_l in Hfr.
    by apply (Hcells (λ q, fadd (inject_Z 0) q) shapes).
  - destruct (broadcast2_is_matrix (λ o q, fsub (inject_Z o) q) _ _ _ _ _ _
                (ones_like shapes) b (Hconst 1) Hmb Hbn Hbr) as (fr & Hfr & Hmat).
    exists fr. split_and!; [done..|].
    unfold ones_like in Hfr. rewrite broadcast2_fmap_l in Hfr.
    by apply (Hcells (λ q, fsub (inject_Z 1) q) shapes).
Qed.

(** ** The plan for broadcastable fractions *)

Section valid_plan.
Context {A : Type}.
Implicit Types (arrays : list (ndarray A)) (x : ndarray A).
Implicit Types (tie_break : Q → Q).

Lemma is_matrix_as2d {X} n r (m : list (list X)) :
  is_matrix n r m → (0 < n)%nat → is_matrix n r (as2d m).
Proof. intros Hm Hn. rewrite as2d_ne; [done|]. intros ->. destruct Hm. simpl in *. lia. Qed.

Lemma is_matrix_lookup {X} n r (m : list (list X)) i j row (c : X) :
  is_matrix n r m → m !! i = Some row → row !! j = Some c → (i < n)%nat ∧ (j < r)%nat.
Proof.
  intros [<- Hr] Hi Hj. split; [by eapply lookup_lt_Some|].
  eapply Forall_lookup_1 in Hr; [|done]. rewrite <-Hr. by eapply lookup_lt_Some.
Qed.

Lemma pad_widths_spec R arrays before after tie_break :
  arrays ≠ [] → equal_rank R arrays →
  broadcastable (length arrays) R (effective before after) →
  ∃ shapes fr t mg pad,
    shape_matrix arrays = Ok shapes ∧
    fractions shapes before after = Ok fr ∧
    is_matrix (length arrays) R fr ∧
    (∀ i r frow f, fr !! i = Some frow → frow !! r = Some f →
       ∃ q, q ∈ entries (effective before after) ∧ f = fraction_of before q) ∧
    max_size arrays = Ok [t] ∧ length t = R ∧
    margins shapes = Ok mg ∧ is_matrix (length arrays) R mg ∧
    (∀ i r mrow m, mg !! i = Some mrow → mrow !! r = Some m →
       margin_cell arrays t i r m) ∧
    pad_widths arrays before after tie_break = Ok pad ∧
    is_matrix (length arrays) R pad ∧
    (∀ i r row p, pad !! i = Some row → row !! r = Some p →
       plan_cell mg fr tie_break i r p).
Proof.
  intros Hne HR Hb. set (N := length arrays) in *.
  assert (0 < N)%nat as HN by (subst N; destruct arrays; simpl; [done|lia]).
  destruct (shape_matrix_equal_rank R arrays HR) as [Hsh Hshm].
  set (shapes := map (λ x, map Z.of_nat (shape x)) arrays) in *.
  destruct (fractions_spec N R shapes before after Hshm HN Hb)
    as (fr & Hfr & Hfrm & Hunit).
  destruct (margins_spec N R shapes Hshm HN)
    as (t & mg & Ht & Htlen & Hmg & Hmgm & Hmgcell).
  destruct (broadcast2_is_matrix scaled_margin N R N R N R mg fr)
    as (scaled & Hsc & Hscm);
    [by apply is_matrix_as2d..|apply bc_same|apply bc_same|].
  set (pad_before := map (map (λ q : Q, astype_int (tie_break q))) scaled).
  assert (is_matrix N R pad_before) as Hpbm.
  { destruct Hscm as [Hl Hr]. split; [by unfold pad_before; rewrite length_map|].
    apply Forall_fmap. eapply Forall_impl; [done|].
    intros row Hrow. cbn. by rewrite length_map. }
  destruct (broadcast2_is_matrix Z.sub N R N R N R mg pad_before)
    as (pad_after & Hpa & Hpam);
    [by apply is_matrix_as2d..|apply bc_same|apply bc_same|].
  assert (pad_widths arrays before after tie_break
          = Ok (zip_with zip pad_before pad_after)) as Hpad.
  { unfold pad_widths. rewrite Hsh. simpl. rewrite Hfr. simpl. rewrite Hmg. simpl.
    rewrite Hsc. simpl. fold pad_before. by rewrite Hpa. }
  exists shapes, fr, t, mg, (zip_with zip pad_before pad_after).
  split_and!; try done.
  - unfold max_size. rewrite Hsh. simpl. done.
  - intros i r mrow m Hi Hr.
    destruct (Hmgcell i r mrow m Hi Hr) as (srow & d & mx & Hsrow & Hd & Hmx & ->).
    unfold shapes in Hsrow. rewrite list_lookup_fmap in Hsrow.
    destruct (arrays !! i) as [x|] eqn:Hx; [|done]. injection Hsrow as <-.
    rewrite list_lookup_fmap in Hd.
    destruct (shape x !! r) as [d'|] eqn:Hd'; [|done]. injection Hd as <-.
    exists x, d', mx. done.
  - destruct Hpbm as [Hl1 Hr1], Hpam as [Hl2 Hr2]. split.
    + rewrite length_zip_with. lia.
    + apply Forall_lookup. intros i row.
      intros (rb & ra & -> & Hrb & Hra)%lookup_zip_with_Some.
      eapply Forall_lookup_1 in Hr1; [|done].
      eapply Forall_lookup_1 in Hr2; [|done].
      rewrite length_zip_with. lia.
  - intros i r row p Hi Hr.
    destruct (pad_widths_inv _ _ _ _ _ Hpad) as (shapes' & fr' & mg' & H1 & H2 & H3 & Hcell).
    assert (shapes' = shapes) as -> by congruence.
    assert (fr' = fr) as -> by congruence.
    assert (mg' = mg) as -> by congruence.
    destruct (Hcell i r row p Hi Hr) as (mrow & m & frow & f & Hmrow & Hm & Hfrow & Hf & Hp1 & Hp2).
    assert ((i < N)%nat ∧ (r < R)%nat) as [HiN HrR].
    { eapply (is_matrix_lookup N R (zip_with zip pad_before pad_after)); [|done..].
      destruct Hpbm as [Hl1 Hr1], Hpam as [Hl2 Hr2]. split.
      - rewrite length_zip_with. lia.
      - apply Forall_lookup. intros i' row'.
        intros (rb & ra & -> & Hrb & Hra)%lookup_zip_with_Some.
        eapply Forall_lookup_1 in Hr1; [|done].
        eapply Forall_lookup_1 in Hr2; [|done].
        rewrite length_zip_with. lia. }
    destruct (lookup_bc_matrix N R mg i r mrow) as [Hmrow' Hjm]; [done..|].
    destruct (lookup_bc_matrix N R fr i r frow) as [Hfrow' Hjf]; [done..|].
    rewrite Hjm in Hm. rewrite Hjf in Hf.
    exists mrow, m, frow, f. done.
Qed.

End valid_plan.

(** ** [before] and [after] *)

Lemma asarray_one_minus f :
  asarray (one_minus f) = map (map (λ q, (1 - q)%Q)) <$> asarray f.
Proof.
  destruct f as [q|v|m]; simpl; [reflexivity..|].
  unfold np_array. rewrite ncols_fmap.
  assert (forallb (λ r, (length r =? ncols m)%nat) (map (map (λ q, (1 - q)%Q)) m)
          = forallb (λ r, (length r =? ncols m)%nat) m) as ->; [|by case_match].
  generalize (ncols m). intros c.
  induction m as [|row m' IH]; simpl; [done|].
  by rewrite length_map, IH.
Qed.

Lemma fractions_one_minus shapes after after' :
  fractions shapes None after = fractions shapes (Some (one_minus after)) after'.
Proof.
  unfold fractions. rewrite asarray_one_minus.
  destruct (asarray after) as [a|e]; simpl; [|done].
  unfold ones_like, zeros_like.
  rewrite broadcast2_fmap_l, broadcast2_fmap.
  unfold broadcast2.
  destruct (bc _ _); simpl; [|done]. destruct (bc _ _); simpl; [|done].
  f_equal. apply zip_with_ext; [|done..]. intros ra rb.
  apply zip_with_ext; [|done..]. intros _ q.
  unfold fadd, fsub. apply round64_proper. by rewrite Qplus_0_l_eq.
Qed.

Section cells.
Context {A : Type}.
Implicit Types (arrays : list (ndarray A)) (x : ndarray A).
Implicit Types (tie_break : Q → Q).

Lemma cell_Some {X} (m : result (list (list X))) i r c :
  cell m i r = Some c ↔ ∃ m' row, m = Ok m' ∧ m' !! i = Some row ∧ row !! r = Some c.
Proof.
  split.
  - destruct m as [m'|e]; simpl; [|done].
    destruct (m' !! i) as [row|] eqn:Hrow; simpl; [|done]. eauto 10.
  - intros (m' & row & -> & Hrow & Hc). simpl. by rewrite Hrow.
Qed.

Lemma is_matrix_cell {X} n r (m : list (list X)) i j :
  is_matrix n r m → (i < n)%nat → (j < r)%nat →
  ∃ row c, m !! i = Some row ∧ row !! j = Some c.
Proof.
  intros [<- Hr] Hi Hj.
  destruct (lookup_lt_is_Some_2 m i Hi) as [row Hrow].
  eapply Forall_lookup_1 in Hr; [|done].
  destruct (lookup_lt_is_Some_2 row j) as [c Hc]; [lia|]. eauto.
Qed.

Lemma margin_at_cell arrays shapes mg i r mrow m :
  shape_matrix arrays = Ok shapes → margins shapes = Ok mg →
  mg !! i = Some mrow → mrow !! r = Some m →
  margin_at arrays i r = Some m.
Proof.
  intros Hsh Hmg Hi Hr. unfold margin_at. rewrite Hsh. simpl. rewrite Hmg. simpl.
  by rewrite Hi.
Qed.

(** For a broadcastable specification every array and axis has its
    margin, its fraction and its pair of pad counts, related as lines
    161-162 say. *)
Lemma pad_at_spec R arrays before after tie_break i r :
  arrays ≠ [] → equal_rank R arrays →
  broadcastable (length arrays) R (effective before after) →
  (i < length arrays)%nat → (r < R)%nat →
  ∃ m f q,
    margin_at arrays i r = Some m ∧
    (∃ t, max_size arrays = Ok [t] ∧ margin_cell arrays t i r m) ∧
    fraction_at arrays before after i r = Some f ∧
    q ∈ entries (effective before after) ∧ f = fraction_of before q ∧
    pad_at arrays before after tie_break i r
    = Some (astype_int (tie_break (scaled_margin m f)),
            m - astype_int (tie_break (scaled_margin m f))).
Proof.
  intros Hne HR Hb Hi Hr.
  destruct (pad_widths_spec R arrays before after tie_break Hne HR Hb)
    as (shapes & fr & t & mg & pad & Hsh & Hfr & Hfrm & Hfrc & Ht & Htl & Hmg & Hmgm
        & Hmgc & Hpad & Hpadm & Hpadc).
  destruct (is_matrix_cell _ _ pad i r Hpadm Hi Hr) as (row & p & Hrow & Hp).
  destruct (Hpadc i r row p Hrow Hp) as (mrow & m & frow & f & Hmrow & Hm & Hfrow & Hf & Hp1 & Hp2).
  destruct (Hfrc i r frow f Hfrow Hf) as (q & Hq & Hfq).
  exists m, f, q. unfold margin_at, fraction_at, pad_at.
  rewrite Hsh, Hpad. simpl. rewrite Hmg, Hfr. simpl.
  rewrite Hrow, Hmrow, Hfrow. simpl.
  split_and!; try done; [by eauto|].
  rewrite Hp. destruct p as [b a]. simpl in *. by subst.
Qed.

End cells.

(** ** The target shape is the per-axis maximum *)

Section target.
Context {A : Type}.
Implicit Types (arrays : list (ndarray A)) (x : ndarray A).

Lemma max_size_lookup arrays t r mx :
  max_size arrays = Ok [t] → t !! r = Some mx →
  (∀ x, x ∈ arrays → ∃ d, shape x !! r = Some d ∧ Z.of_nat d ≤ mx) ∧
  (∃ x d, x ∈ arrays ∧ shape x !! r = Some d ∧ mx = Z.of_nat d).
Proof.
  unfold max_size. intros H Hr. inv_Ok. rename x into shapes.
  apply shape_matrix_Ok in H0 as (-> & _).
  destruct arrays as [|x0 arrays]; [done|]. simpl in H. injection H as <-.
  apply foldl_max_lookup in Hr as [Hle (row & Hrow & Hatt)].
  change (map Z.of_nat (shape x0) :: map (λ x, map Z.of_nat (shape x)) arrays)
    with ((λ x, map Z.of_nat (shape x)) <$> (x0 :: arrays)) in *.
  split.
  - intros x Hx.
    destruct (Hle (map Z.of_nat (shape x))) as (v & Hv & Hvle).
    { apply list_elem_of_fmap. by exists x. }
    rewrite list_lookup_fmap in Hv.
    destruct (shape x !! r) as [d|]; [|done]. injection Hv as <-. eauto.
  - apply list_elem_of_fmap in Hrow as (x & -> & Hx).
    rewrite list_lookup_fmap in Hatt.
    destruct (shape x !! r) as [d|] eqn:Hd; [|done]. injection Hatt as <-.
    eauto.
Qed.

Lemma max_size_per_axis_max R arrays t :
  equal_rank R arrays → max_size arrays = Ok [t] → length t = R →
  per_axis_max arrays (map Z.to_nat t) ∧ map Z.of_nat (map Z.to_nat t) = t.
Proof.
  intros HR Ht Hlen. split; [split|].
  - intros x Hx. rewrite length_map, Hlen.
    by eapply Forall_forall in HR.
  - intros r m Hm. rewrite list_lookup_fmap in Hm.
    destruct (t !! r) as [mx|] eqn:Hmx; [|done]. injection Hm as <-.
    destruct (max_size_lookup _ _ _ _ Ht Hmx) as [Hle (x & d & Hx & Hd & ->)].
    split.
    + intros y Hy. destruct (Hle y Hy) as (d' & Hd' & Hle').
      exists d'. split; [done|lia].
    + exists x. rewrite Nat2Z.id. done.
  - apply list_eq. intros r. rewrite !list_lookup_fmap.
    destruct (t !! r) as [mx|] eqn:Hmx; [|done]. simpl.
    destruct (max_size_lookup _ _ _ _ Ht Hmx) as [_ (x & d & _ & _ & ->)].
    by rewrite Nat2Z.id.
Qed.

Lemma margin_cell_nonneg arrays t i r m :
  max_size arrays = Ok [t] → margin_cell arrays t i r m → 0 ≤ m.
Proof.
  intros Ht (x & d & mx & Hx & Hd & Hmx & ->).
  destruct (max_size_lookup _ _ _ _ Ht Hmx) as [Hle _].
  destruct (Hle x) as (d' & Hd' & ?); [by eapply list_elem_of_lookup_2|].
  assert (d' = d) as -> by congruence. lia.
Qed.

End target.

(** ** [np.pad]: shapes and exceptions *)

Section np_pad_shape.
Context {A : Type}.
Implicit Types (arrays : list (ndarray A)) (x y : ndarray A) (value : A).

(** With arrays of one rank [R > 0] the shape matrix holds integers. *)
Lemma shapes_dtype_int64 R arrays :
  arrays ≠ [] → equal_rank R arrays → (0 < R)%nat → shapes_dtype arrays = int64.
Proof.
  intros Hne HR HR0. destruct arrays as [|x arrays]; [done|].
  apply Forall_cons in HR as [Hx _]. unfold shapes_dtype. simpl.
  destruct (Nat.eqb_spec (length (shape x)) 0) as [H0|H0]; [lia|done].
Qed.

(** With arrays of rank 0, as with no array, it holds no entry and is a
    float64 array. *)
Lemma shapes_dtype_float64 arrays :
  equal_rank 0 arrays → shapes_dtype arrays = float64.
Proof.
  intros HR. unfold shapes_dtype.
  assert (forallb (λ x, (length (shape x) =? 0)%nat) arrays = true) as ->; [|done].
  induction HR as [|x arrays Hx _ IH]; simpl; [done|]. by rewrite Hx, IH.
Qed.

Lemma existsb_negative (w : list (Z * Z)) :
  existsb (λ p : Z * Z, (p.1 <? 0) || (p.2 <? 0)) w = false ↔ nonneg_widths w.
Proof.
  unfold nonneg_widths. induction w as [|p w IH]; simpl.
  - split; [constructor|done].
  - rewrite orb_false_iff, IH, Forall_cons, orb_false_iff, !Z.ltb_ge. tauto.
Qed.

Lemma np_pad_Ok x w value :
  nonneg_widths w → length w = length (shape x) → w ≠ [] →
  np_pad x int64 w value = Ok (padded value x w).
Proof.
  intros Hw Hlen Hne. unfold np_pad, padded.
  apply existsb_negative in Hw. rewrite Hw.
  destruct w as [|p [|p' w]]; simpl in *.
  - done.
  - by rewrite <-Hlen.
  - rewrite <-Hlen. simpl. by rewrite Nat.eqb_refl.
Qed.

Lemma np_pad_negative x w value :
  ¬ nonneg_widths w →
  np_pad x int64 w value = Raise ValueError_negative_pad.
Proof.
  intros Hneg. unfold np_pad.
  destruct (existsb (λ p : Z * Z, (p.1 <? 0) || (p.2 <? 0)) w) eqn:H.
  - destruct w; [done|reflexivity].
  - by apply existsb_negative in H.
Qed.

(** What [np.pad] has checked when it returns. *)
Lemma np_pad_Ok_inv x dt (w : list (Z * Z)) value y :
  np_pad x dt w value = Ok y →
  dt = int64 ∧ w ≠ [] ∧ nonneg_widths w ∧
  (length w = length (shape x) ∨ length w = 1%nat).
Proof.
  unfold np_pad. destruct dt; [|done]. destruct w as [|p w]; [done|].
  destruct (existsb _ (p :: w)) eqn:Hneg; [done|].
  apply existsb_negative in Hneg. intros H. split_and!; [done..|].
  revert H.
  destruct (Nat.eqb_spec (length (p :: w)) (length (shape x))) as [Heq|Hne]; [by left|].
  intros H. by destruct w as [|p' w]; [right|].
Qed.

End np_pad_shape.

(** ** Pad counts *)

Section pad_counts.
Context {A : Type}.
Implicit Types (arrays : list (ndarray A)) (x : ndarray A) (value : A).
Implicit Types (tie_break : Q → Q).

(** With fractions in [0, 1], margins that are float64 values and the
    floor, no pad count is negative. *)
Lemma floor_plan_nonneg R arrays before after :
  arrays ≠ [] → equal_rank R arrays → exact_margins arrays →
  broadcastable (length arrays) R (effective before after) →
  unit_fractions (effective before after) →
  ∃ pad, pad_widths arrays before after np_floor = Ok pad ∧
         is_matrix (length arrays) R pad ∧ Forall nonneg_widths pad.
Proof.
  intros Hne HR Hex Hb Hu.
  destruct (pad_widths_spec R arrays before after np_floor Hne HR Hb)
    as (shapes & fr & t & mg & pad & Hsh & Hfr & Hfrm & Hfrc & Ht & Htl & Hmg & Hmgm
        & Hmgc & Hpad & Hpadm & Hpadc).
  exists pad. split_and!; [done..|].
  apply Forall_lookup. intros i row Hrow. apply Forall_lookup. intros r p Hp.
  destruct (Hpadc i r row p Hrow Hp)
    as (mrow & m & frow & f & Hmrow & Hm & Hfrow & Hf & Hp1 & Hp2).
  destruct (Hfrc i r frow f Hfrow Hf) as (q & Hq & ->).
  assert (0 ≤ m) by (eapply margin_cell_nonneg; eauto).
  assert (representable (inject_Z m)) by (eapply Hex, margin_at_cell; eauto).
  assert (in_unit (fraction_of before q)) as Hin.
  { apply in_unit_fraction_of. by eapply Forall_forall in Hu. }
  pose proof (floor_fraction_bounds m _ H H0 Hin). lia.
Qed.

End pad_counts.

(** ** Tie-break *)

(** The product of line 161 depends on the value of the fraction only. *)
Lemma scaled_margin_proper (m : Z) (f g : Q) :
  (f == g)%Q → scaled_margin m f = scaled_margin m g.
Proof.
  intros Hfg. unfold scaled_margin, astype_float. by rewrite (round64_proper f g Hfg).
Qed.

Lemma floor_half_of_5 (f : Q) :
  (f == 1#2)%Q → astype_int (np_floor (scaled_margin 5 f)) = 2.
Proof. intros Hf. rewrite (scaled_margin_proper 5 f (1#2) Hf). reflexivity. Qed.

Lemma ceil_half_of_5 (f : Q) :
  (f == 1#2)%Q → astype_int (np_ceil (scaled_margin 5 f)) = 3.
Proof. intros Hf. rewrite (scaled_margin_proper 5 f (1#2) Hf). reflexivity. Qed.

(** ** Defaults *)

Section defaults.
Context {A : Type}.
Implicit Types (arrays : list (ndarray A)) (x : ndarray A) (value : A).
Implicit Types (tie_break : Q → Q).

Lemma pad_max_shape_one_minus arrays after after' value tie_break :
  pad_max_shape arrays None after value tie_break
  = pad_max_shape arrays (Some (one_minus after)) after' value tie_break.
Proof.
  unfold pad_max_shape, pad_widths.
  destruct (shape_matrix arrays) as [shapes|e]; [|done].
  cbn [mbind result_bind].
  by rewrite (fractions_one_minus shapes after after').
Qed.

Lemma floor_of_nothing (m : Z) :
  astype_int (np_floor (scaled_margin m (fraction_of None 1))) = 0.
Proof.
  assert (scaled_margin m (fraction_of None 1) = 0%Q) as ->; [|reflexivity].
  unfold scaled_margin, fmul. apply round64_0.
  change (astype_float (fraction_of None 1)) with 0%Q. ring.
Qed.

End defaults.

(** ** The padded arrays *)

Section outputs.
Context {A : Type}.
Implicit Types (arrays : list (ndarray A)) (x y : ndarray A) (value : A).
Implicit Types (tie_break : Q → Q).

(** [np.pad] accepts every row of an integer plan without negative
    counts, for arrays of rank at least one. *)
Lemma np_pad_rows_Ok R arrays value (pad : list (list (Z * Z))) :
  equal_rank R arrays → (0 < R)%nat →
  is_matrix (length arrays) R pad → Forall nonneg_widths pad →
  Forall2 (λ x w, np_pad x int64 w value = Ok (padded value x w)) arrays pad.
Proof.
  intros HR HR0 [Hlen Hrows] Hnn.
  apply Forall2_same_length_lookup. split; [done|].
  intros i x w Hx Hw.
  eapply Forall_lookup_1 in Hrows; [|done].
  eapply Forall_lookup_1 in HR; [|done]. simpl in HR, Hrows.
  apply np_pad_Ok.
  - by eapply Forall_lookup_1 in Hnn.
  - lia.
  - intros ->. simpl in Hrows. lia.
Qed.

(** Line 164 on a plan without negative counts. *)
Lemma pad_max_shape_Ok R arrays before after value tie_break pad :
  arrays ≠ [] → equal_rank R arrays → (0 < R)%nat →
  pad_widths arrays before after tie_break = Ok pad →
  is_matrix (length arrays) R pad → Forall nonneg_widths pad →
  pad_max_shape arrays before after value tie_break
  = Ok (zip_with (padded value) arrays pad).
Proof.
  intros Hne HR HR0 Hpad Hpadm Hnn. unfold pad_max_shape. rewrite Hpad. simpl.
  rewrite (shapes_dtype_int64 R) by done.
  apply (mapM_zip_Ok (λ x w, np_pad x int64 w value) (padded value)).
  by eapply np_pad_rows_Ok.
Qed.

(** Line 164 on arrays of rank 0: the rows of the plan are float64
    arrays, which [np.pad] refuses. *)
Lemma pad_max_shape_rank_0 arrays before after value tie_break pad :
  equal_rank 0 arrays →
  pad_widths arrays before after tie_break = Ok pad →
  arrays ≠ [] → pad ≠ [] →
  pad_max_shape arrays before after value tie_break = Raise TypeError_pad_width.
Proof.
  intros HR Hpad Hne Hpne. unfold pad_max_shape. rewrite Hpad. simpl.
  rewrite shapes_dtype_float64 by done.
  destruct arrays as [|x arrays]; [done|]. by destruct pad as [|w pad].
Qed.

(** A row of the plan without negative counts pads its array to the
    target shape. *)
Lemma padded_shape_target R arrays value tie_break fr t mg pad i x w :
  equal_rank R arrays → length t = R →
  is_matrix (length arrays) R pad →
  (∀ i r mrow m, mg !! i = Some mrow → mrow !! r = Some m →
     margin_cell arrays t i r m) →
  (∀ i r row p, pad !! i = Some row → row !! r = Some p →
     plan_cell mg fr tie_break i r p) →
  arrays !! i = Some x → pad !! i = Some w → nonneg_widths w →
  shape (padded value x w) = map Z.to_nat t.
Proof.
  intros HR Htl [Hlen Hrows] Hmgc Hpadc Hx Hw Hnn.
  eapply Forall_lookup_1 in HR; [|done]. simpl in HR.
  eapply Forall_lookup_1 in Hrows; [|done]. simpl in Hrows.
  unfold padded. cbn [shape]. unfold padded_shape, to_nat_widths.
  apply list_eq_same_length with R.
  - by rewrite length_map.
  - rewrite length_zip_with, length_map. lia.
  - intros r d1 d2 Hr Hd1 Hd2.
    apply lookup_zip_with_Some in Hd1 as (d & p & -> & Hd & Hp).
    rewrite list_lookup_fmap in Hp.
    destruct (w !! r) as [[b a]|] eqn:Hba; [|done]. injection Hp as <-. simpl.
    rewrite list_lookup_fmap in Hd2.
    destruct (t !! r) as [mx|] eqn:Hmx; [|done]. injection Hd2 as <-.
    destruct (Hpadc i r w (b, a) Hw Hba)
      as (mrow & m & frow & f & Hmrow & Hm & _ & _ & Hp1 & Hp2). simpl in *.
    destruct (Hmgc i r mrow m Hmrow Hm) as (x' & d' & mx' & Hx' & Hd' & Hmx' & ->).
    assert (x' = x) as -> by congruence.
    assert (d' = d) as -> by congruence.
    assert (mx' = mx) as -> by congruence.
    eapply Forall_lookup_1 in Hnn; [|done]. simpl in Hnn. lia.
Qed.

End outputs.

(** ** The cells of a padded array *)

Section cells_of_padded.
Context {A : Type}.
Implicit Types (l : list A) (value : A) (s idx : list nat) (w : list (nat * nat)).

Lemma ravel_lt s idx : in_bounds s idx → (ravel s idx < size_of s)%nat.
Proof.
  unfold in_bounds. intros H. induction H as [|i d idx s Hi _ IH]; simpl; [lia|].
  fold (size_of s). nia.
Qed.

Lemma length_chunks d k l : length (chunks d k l) = d.
Proof. revert l. induction d as [|d IH]; intros l; simpl; [done|]. by rewrite IH. Qed.

Lemma chunks_lookup d k l c :
  (c < d)%nat → chunks d k l !! c = Some (take k (drop (c * k) l)).
Proof.
  revert l c. induction d as [|d IH]; intros l c Hc; [lia|].
  destruct c as [|c]; simpl; [done|].
  rewrite IH by lia. by rewrite drop_drop.
Qed.

Lemma chunks_length_each d k l :
  length l = (d * k)%nat → Forall (λ ch, length ch = k) (chunks d k l).
Proof.
  revert l. induction d as [|d IH]; intros l Hl; simpl; constructor.
  - rewrite length_take. lia.
  - apply IH. rewrite length_drop. lia.
Qed.

Lemma length_concat_uniform {X} k (ls : list (list X)) :
  Forall (λ c, length c = k) ls → length (concat ls) = (length ls * k)%nat.
Proof.
  induction 1 as [|c ls Hc _ IH]; simpl; [done|].
  rewrite length_app, IH. lia.
Qed.

Lemma lookup_concat_uniform {X} k (ls : list (list X)) c j :
  Forall (λ c, length c = k) ls → (j < k)%nat →
  concat ls !! (c * k + j)%nat = ls !! c ≫= (.!! j).
Proof.
  intros Hls Hj. revert c. induction Hls as [|x ls Hx _ IH]; intros c; simpl.
  - done.
  - destruct c as [|c]; simpl.
    + by rewrite lookup_app_l by lia.
    + rewrite lookup_app_r by lia.
      replace (k + c * k + j - length x)%nat with (c * k + j)%nat by lia.
      apply IH.
Qed.

Lemma length_padded_shape s w :
  length w = length s → length (padded_shape s w) = length s.
Proof. intros H. unfold padded_shape. rewrite length_zip_with. lia. Qed.

Lemma length_pad_data value s w l :
  length w = length s → length l = size_of s →
  length (pad_data value s w l) = size_of (padded_shape s w).
Proof.
  revert w l. induction s as [|d s IH]; intros [|[b a] w] l Hw Hl; simpl in *;
    try done.
  fold (size_of (padded_shape s w)).
  rewrite !length_app, !length_replicate.
  rewrite (length_concat_uniform (size_of (padded_shape s w))).
  - rewrite length_map, length_chunks. lia.
  - apply Forall_fmap. fold (size_of s) in Hl.
    eapply Forall_impl; [by apply chunks_length_each|].
    intros ch Hch. cbn. apply IH; [lia|done].
Qed.

Lemma in_block_unshift s w idx :
  length w = length s → length idx = length s → in_block s w idx = true →
  in_bounds s (unshift w idx) ∧ shift w (unshift w idx) = idx.
Proof.
  revert w idx. induction s as [|d s IH]; intros [|[b a] w] [|i idx] Hw Hidx Hin;
    simpl in *; try done.
  - split; [constructor|done].
  - apply andb_true_iff in Hin as [[Hb Hd]%andb_true_iff Hin].
    apply Nat.leb_le in Hb. apply Nat.ltb_lt in Hd.
    destruct (IH w idx) as [IH1 IH2]; [lia..|done|].
    split.
    + constructor; [lia|done].
    + unfold shift, unshift in *. simpl. rewrite IH2. f_equal. lia.
Qed.

Lemma in_block_shift s w idx :
  length w = length s → in_bounds s idx →
  in_block s w (shift w idx) = true ∧ unshift w (shift w idx) = idx.
Proof.
  unfold in_bounds. intros Hw H. revert w Hw.
  induction H as [|i d idx s Hi _ IH]; intros [|[b a] w] Hw; simpl in *; try done.
  destruct (IH w) as [IH1 IH2]; [lia|].
  split.
  - rewrite IH1. apply andb_true_iff. split; [|done].
    apply andb_true_iff. split; [apply Nat.leb_le|apply Nat.ltb_lt]; lia.
  - unfold shift, unshift in *. simpl. rewrite IH2. f_equal. lia.
Qed.

(** The cell of the padded array at [idx]: the cell of the original at
    [idx] moved back by the before counts when [idx] is in the block,
    the fill value elsewhere. *)
Lemma pad_data_lookup value s w l idx :
  length w = length s → length l = size_of s →
  in_bounds (padded_shape s w) idx →
  pad_data value s w l !! ravel (padded_shape s w) idx
  = if in_block s w idx then l !! ravel s (unshift w idx) else Some value.
Proof.
  revert w l idx. induction s as [|d s IH]; intros [|[b a] w] l idx Hw Hl Hidx;
    simpl in *; try done.
  inversion Hidx as [|i d' idx' s' Hi Hidx' Heq1 Heq2]; subst. simpl in *.
  { fold (size_of s) in *. fold (size_of (padded_shape s w)).
    set (k := size_of s) in *. set (k' := size_of (padded_shape s w)).
    pose proof (ravel_lt _ _ Hidx') as Hj. fold k' in Hj.
    set (j := ravel (padded_shape s w) idx') in *.
    assert (Forall (λ c, length c = k')
              (map (pad_data value s w) (chunks d k l))) as Hchunks.
    { apply Forall_fmap. eapply Forall_impl; [by apply chunks_length_each|].
      intros ch Hch. cbn. apply length_pad_data; [lia|done]. }
    assert (length (concat (map (pad_data value s w) (chunks d k l))) = (d * k')%nat)
      as Hmid.
    { rewrite (length_concat_uniform k') by done.
      by rewrite length_map, length_chunks. }
    destruct (Nat.leb_spec b i) as [Hbi|Hbi]; simpl.
    + destruct (Nat.ltb_spec i (b + d)) as [Hid|Hid]; simpl.
      * rewrite lookup_app_r by (rewrite length_replicate; nia).
        rewrite length_replicate.
        rewrite lookup_app_l by (rewrite Hmid; nia).
        replace (i * k' + j - b * k')%nat with ((i - b) * k' + j)%nat by nia.
        rewrite (lookup_concat_uniform k') by done.
        rewrite list_lookup_fmap, chunks_lookup by lia. simpl. unfold j.
        rewrite IH; [|lia| |done].
        2:{ rewrite length_take, length_drop. nia. }
        destruct (in_block s w idx') eqn:Hblock; [|done].
        destruct (in_block_unshift s w idx') as [Hin _]; [lia| |done|].
        { apply Forall2_length in Hidx'. rewrite Hidx'.
          apply length_padded_shape. lia. }
        apply ravel_lt in Hin. fold k in Hin.
        rewrite lookup_take_lt by done. by rewrite lookup_drop.
      * rewrite lookup_app_r by (rewrite length_replicate; nia).
        rewrite length_replicate.
        rewrite lookup_app_r by (rewrite Hmid; nia).
        rewrite Hmid. apply lookup_replicate. split; [done|]. nia.
    + rewrite lookup_app_l by (rewrite length_replicate; nia).
      apply lookup_replicate. split; [done|]. nia. }
Qed.

End cells_of_padded.

Section identity_padding.
Context {A : Type}.
Implicit Types (l : list A) (value : A) (s idx : list nat) (w : list (nat * nat)).

Lemma concat_chunks d k l : length l = (d * k)%nat → concat (chunks d k l) = l.
Proof.
  revert l. induction d as [|d IH]; intros l Hl; simpl.
  - by destruct l.
  - rewrite IH by (rewrite length_drop; lia). apply take_drop.
Qed.

Lemma in_bounds_shift s w idx :
  length w = length s → in_bounds s idx → in_bounds (padded_shape s w) (shift w idx).
Proof.
  unfold in_bounds. intros Hw H. revert w Hw.
  induction H as [|i d idx s Hi _ IH]; intros [|[b a] w] Hw; simpl in *; try done.
  constructor; [simpl; lia|]. apply IH. lia.
Qed.

(** Padding by nothing changes nothing. *)
Lemma pad_data_zero value s w l :
  length w = length s → length l = size_of s → Forall (λ p, p = (0, 0)%nat) w →
  padded_shape s w = s ∧ pad_data value s w l = l.
Proof.
  revert w l. induction s as [|d s IH]; intros [|[b a] w] l Hw Hl Hz;
    simpl in *; try done.
  apply Forall_cons in Hz as [[= -> ->] Hz]. simpl.
  fold (size_of s) in Hl.
  assert (padded_shape s w = s) as Hs.
  { destruct (IH w (replicate (size_of s) value)) as [? _];
      [lia|by rewrite length_replicate|done..]. }
  split.
  { unfold padded_shape in *. simpl. rewrite Hs. f_equal. lia. }
  rewrite app_nil_r.
  assert (map (pad_data value s w) (chunks d (size_of s) l) = chunks d (size_of s) l)
    as ->.
  { pose proof (chunks_length_each d (size_of s) l Hl) as Hch.
    induction Hch as [|ch chs Hlen _ IHch]; simpl; [done|].
    rewrite IHch. f_equal. apply IH; [lia|done..]. }
  by apply concat_chunks.
Qed.

End identity_padding.

Section contents.
Context {A : Type}.
Implicit Types (arrays : list (ndarray A)) (x y : ndarray A) (value : A).
Implicit Types (tie_break : Q → Q).

Lemma length_to_nat_widths (w : list (Z * Z)) : length (to_nat_widths w) = length w.
Proof. unfold to_nat_widths. by rewrite length_map. Qed.

(** The cells of [padded value x w]. *)
Lemma item_padded value x (w : list (Z * Z)) :
  wf x → length w = length (shape x) →
  (∀ idx, in_bounds (shape x) idx →
     in_bounds (shape (padded value x w)) (shift (to_nat_widths w) idx) ∧
     is_Some (item x idx) ∧
     item (padded value x w) (shift (to_nat_widths w) idx) = item x idx) ∧
  (∀ idx, in_bounds (shape (padded value x w)) idx →
     (¬ ∃ idx0, in_bounds (shape x) idx0 ∧ idx = shift (to_nat_widths w) idx0) →
     item (padded value x w) idx = Some value).
Proof.
  intros Hwf Hlen. unfold item, padded. cbn [shape data].
  assert (length (to_nat_widths w) = length (shape x)) as Hlen'
    by (by rewrite length_to_nat_widths).
  split.
  - intros idx Hidx.
    pose proof (in_bounds_shift _ _ _ Hlen' Hidx) as Hb.
    destruct (in_block_shift _ _ _ Hlen' Hidx) as [Hblock Hun].
    split_and!; [done| |].
    + apply lookup_lt_is_Some_2. rewrite Hwf. by apply ravel_lt.
    + rewrite pad_data_lookup by done. by rewrite Hblock, Hun.
  - intros idx Hidx Hout. rewrite pad_data_lookup by done.
    destruct (in_block _ _ idx) eqn:Hblock; [|done].
    exfalso. apply Hout.
    destruct (in_block_unshift (shape x) (to_nat_widths w) idx) as [H1 H2];
      [done| |done|by eauto].
    apply Forall2_length in Hidx. rewrite Hidx. by apply length_padded_shape.
Qed.

Lemma astype_int_Qeq (q : Q) (k : Z) : (q == inject_Z k)%Q → astype_int q = k.
Proof.
  destruct q as [n d]. unfold Qeq, astype_int. simpl. intros Hq.
  rewrite Z.mul_1_r in Hq. subst n. by apply Z.quot_mul.
Qed.

Lemma padded_zero value x (w : list (Z * Z)) :
  wf x → length w = length (shape x) → Forall (λ p, p = (0, 0)) w →
  padded value x w = x.
Proof.
  intros Hwf Hlen Hz. unfold padded.
  destruct (pad_data_zero value (shape x) (to_nat_widths w) (data x)) as [-> ->].
  - by rewrite length_to_nat_widths.
  - done.
  - apply Forall_fmap. eapply Forall_impl; [done|]. by intros p ->.
  - by destruct x.
Qed.

End contents.

Lemma np_floor_integer (q : Q) (k : Z) :
  (q == inject_Z k)%Q → (np_floor q == inject_Z k)%Q.
Proof. intros Hq. unfold np_floor. by rewrite Hq, Qfloor_Z. Qed.

(** ** Margins that float64 holds exactly *)

Section exact.
Context {A : Type}.
Implicit Types (arrays : list (ndarray A)) (x : ndarray A).

(** A margin is the target extent minus an extent. *)
Lemma margin_at_inv arrays i r m :
  margin_at arrays i r = Some m →
  ∃ t, max_size arrays = Ok [t] ∧ margin_cell arrays t i r m.
Proof.
  intros Hm. apply cell_Some in Hm as (mg & mrow & Hmg & Hmrow & Hc). inv_Ok.
  rename x into shapes.
  destruct (shape_matrix_Ok _ _ H) as (Hshapes & R & HR & Hshm).
  assert (0 < length arrays)%nat as HN.
  { destruct arrays; simpl; [|lia]. by subst shapes. }
  destruct (margins_spec _ _ _ Hshm HN) as (t & mg' & Ht & _ & Hmg' & _ & Hcell).
  assert (mg' = mg) as -> by congruence.
  exists t. split; [unfold max_size; by rewrite H|].
  destruct (Hcell i r mrow m Hmrow Hc) as (srow & d & mx & Hsrow & Hd & Hmx & ->).
  subst shapes. rewrite list_lookup_fmap in Hsrow.
  destruct (arrays !! i) as [x|] eqn:Hx; [|done]. injection Hsrow as <-.
  rewrite list_lookup_fmap in Hd.
  destruct (shape x !! r) as [d'|] eqn:Hd'; [|done]. injection Hd as <-.
  by exists x, d', mx.
Qed.

(** No margin is negative or exceeds the largest extent: the margins of
    arrays whose extents are at most [2^53] are float64 values. *)
Lemma exact_margins_of_extents arrays :
  Forall (λ x, Forall (λ d, Z.of_nat d ≤ 2 ^ 53) (shape x)) arrays →
  exact_margins arrays.
Proof.
  intros Hext i r m Hm.
  destruct (margin_at_inv _ _ _ _ Hm) as (t & Ht & Hcell).
  pose proof (margin_cell_nonneg _ _ _ _ _ Ht Hcell) as Hm0.
  destruct Hcell as (x & d & mx & Hx & Hd & Hmx & ->).
  destruct (max_size_lookup _ _ _ _ Ht Hmx) as [_ (x' & d' & Hx' & Hd' & ->)].
  eapply Forall_forall in Hext; [|exact Hx'].
  eapply Forall_lookup_1 in Hext; [|exact Hd']. simpl in Hext.
  apply representable_Z. lia.
Qed.

End exact.

(** ** Arrays of rank 0, and a margin beyond [2^53] *)

(** The arrays [empties n] for [n = 2^53 + 4], with the whole margin
    before the data: the margin [2^53 + 3] of the first array becomes the
    float64 [2^53 + 4] on line 161, one more than there is to pad. *)
Lemma empties_margins (n : nat) :
  Z.of_nat n = 2 ^ 53 + 4 →
  (shapes ← shape_matrix (empties n); margins shapes)
  = Ok [[0; 2 ^ 53 + 3]; [0; 0]].
Proof.
  intros Hn. unfold shape_matrix, empties. cbn [map shape].
  rewrite Hn. reflexivity.
Qed.

Lemma empties_plan (n : nat) :
  Z.of_nat n = 2 ^ 53 + 4 →
  pad_widths (empties n) (Some (Scalar 1)) (Scalar 1) np_floor
  = Ok [[(0, 0); (2 ^ 53 + 4, -1)]; [(0, 0); (0, 0)]].
Proof.
  intros Hn. unfold pad_widths, shape_matrix, empties. cbn [map shape].
  rewrite Hn. vm_compute. reflexivity.
Qed.

Lemma empties_raise (n : nat) :
  Z.of_nat n = 2 ^ 53 + 4 →
  pad_max_shape (empties n) (Some (Scalar 1)) (Scalar 1) 0 np_floor
  = Raise ValueError_negative_pad.
Proof.
  intros Hn. unfold pad_max_shape. rewrite (empties_plan n Hn). reflexivity.
Qed.

Lemma empties_wf (n : nat) : Forall wf (empties n).
Proof. repeat constructor. Qed.

Lemma empties_equal_rank (n : nat) : equal_rank 2 (empties n).
Proof. repeat constructor. Qed.

Lemma wide_extent : Z.of_nat (Z.to_nat (2 ^ 53 + 4)) = 2 ^ 53 + 4.
Proof. apply Z2Nat.id. by vm_compute. Qed.

(** [2^53 + 3] is no float64: rounding moves it. *)
Lemma not_representable_wide_margin : ¬ representable (inject_Z (2 ^ 53 + 3)).
Proof. intros H. apply round64_repr in H. vm_compute in H. discriminate H. Qed.

(** * Doctests (the docstring of [pad_max_shape]) *)

Example doctest_default :
  pad_max_shape_default arrays_357
  = Ok [mk_ndarray [7%nat] [0; 1; 2; 0; 0; 0; 0];
        mk_ndarray [7%nat] [0; 1; 2; 3; 4; 0; 0];
        mk_ndarray [7%nat] [0; 1; 2; 3; 4; 5; 6]].
Proof. reflexivity. Qed.

Example doctest_before_1 :
  pad_max_shape arrays_357 (Some (Scalar 1)) (Scalar 1) 9 np_floor
  = Ok [mk_ndarray [7%nat] [9; 9; 9; 9; 0; 1; 2];
        mk_ndarray [7%nat] [9; 9; 0; 1; 2; 3; 4];
        mk_ndarray [7%nat] [0; 1; 2; 3; 4; 5; 6]].
Proof. reflexivity. Qed.

Example doctest_after_half :
  pad_max_shape arrays_357 None (Scalar (1#2)) 9 np_floor
  = Ok [mk_ndarray [7%nat] [9; 9; 0; 1; 2; 9; 9];
        mk_ndarray [7%nat] [9; 0; 1; 2; 3; 4; 9];
        mk_ndarray [7%nat] [0; 1; 2; 3; 4; 5; 6]].
Proof. reflexivity. Qed.

Example doctest_tie_break_floor :
  pad_max_shape arrays_38 (Some (Scalar (1#2))) (Scalar 1) 0 np_floor
  = Ok [mk_ndarray [8%nat] [0; 0; 1; 2; 3; 0; 0; 0];
        mk_ndarray [8%nat] [0; 1; 2; 3; 4; 5; 6; 7]].
Proof. reflexivity. Qed.

Example doctest_tie_break_ceil :
  pad_max_shape arrays_38 (Some (Scalar (1#2))) (Scalar 1) 0 np_ceil
  = Ok [mk_ndarray [8%nat] [0; 0; 0; 1; 2; 3; 0; 0];
        mk_ndarray [8%nat] [0; 1; 2; 3; 4; 5; 6; 7]].
Proof. reflexivity. Qed.

Example doctest_per_axis :
  (take 2 <$> pad_max_shape squares (Some (Vector [0; 1#2]%Q)) (Scalar 1) 0 np_floor)
  = Ok [mk_ndarray [7; 7]%nat
          [0; 0; 3; 3; 3; 0; 0;  0; 0; 3; 3; 3; 0; 0;  0; 0; 3; 3; 3; 0; 0;
           0; 0; 0; 0; 0; 0; 0;  0; 0; 0; 0; 0; 0; 0;  0; 0; 0; 0; 0; 0; 0;
           0; 0; 0; 0; 0; 0; 0];
        mk_ndarray [7; 7]%nat
          [0; 5; 5; 5; 5; 5; 0;  0; 5; 5; 5; 5; 5; 0;  0; 5; 5; 5; 5; 5; 0;
           0; 5; 5; 5; 5; 5; 0;  0; 5; 5; 5; 5; 5; 0;  0; 0; 0; 0; 0; 0; 0;
           0; 0; 0; 0; 0; 0; 0]].
Proof. reflexivity. Qed.

Example doctest_per_array :
  (take 2 <$> pad_max_shape squares
     (Some (Matrix [[0; 1#2]; [1#2; 1]; [0; 0]]%Q)) (Scalar 1) 0 np_floor)
  = Ok [mk_ndarray [7; 7]%nat
          [0; 0; 3; 3; 3; 0; 0;  0; 0; 3; 3; 3; 0; 0;  0; 0; 3; 3; 3; 0; 0;
           0; 0; 0; 0; 0; 0; 0;  0; 0; 0; 0; 0; 0; 0;  0; 0; 0; 0; 0; 0; 0;
           0; 0; 0; 0; 0; 0; 0];
        mk_ndarray [7; 7]%nat
          [0; 0; 0; 0; 0; 0; 0;  0; 0; 5; 5; 5; 5; 5;  0; 0; 5; 5; 5; 5; 5;
           0; 0; 5; 5; 5; 5; 5;  0; 0; 5; 5; 5; 5; 5;  0; 0; 5; 5; 5; 5; 5;
           0; 0; 0; 0; 0; 0; 0]].
Proof. reflexivity. Qed.

(** * Properties of [pad_max_shape] *)

(** ** Shape invariant *)

(** C1. For a non-empty collection of arrays of one rank [R] that is at
    least one, whose margins are all float64 values (as every margin up
    to [2^53] is), fractions in [0, 1] and the floor, the call returns one
    array per input, in the order of the inputs (output [i] is input [i]
    padded by row [i] of the plan), each of the shape that is the
    per-axis maximum of the input shapes. *)
Theorem shape_invariant {A : Type} (R : nat) (arrays : list (ndarray A))
    (before : option array_like) (after : array_like) (value : A) :
  arrays ≠ [] → equal_rank R arrays → (0 < R)%nat → exact_margins arrays →
  broadcastable (length arrays) R (effective before after) →
  unit_fractions (effective before after) →
  ∃ outs pad target,
    pad_max_shape arrays before after value np_floor = Ok outs ∧
    length outs = length arrays ∧
    pad_widths arrays before after np_floor = Ok pad ∧
    (∀ i x, arrays !! i = Some x →
       ∃ w, pad !! i = Some w ∧
            np_pad x (shapes_dtype arrays) w value = Ok (padded value x w) ∧
            outs !! i = Some (padded value x w)) ∧
    per_axis_max arrays target ∧
    Forall (λ y, shape y = target) outs.
Proof.
  intros Hne HR HR0 Hex Hb Hu.
  destruct (pad_widths_spec R arrays before after np_floor Hne HR Hb)
    as (shapes & fr & t & mg & pad & Hsh & Hfr & Hfrm & Hfrc & Ht & Htl & Hmg & Hmgm
        & Hmgc & Hpad & Hpadm & Hpadc).
  destruct (floor_plan_nonneg R arrays before after Hne HR Hex Hb Hu)
    as (pad' & Hpad' & _ & Hnn).
  assert (pad' = pad) as -> by congruence.
  exists (zip_with (padded value) arrays pad), pad, (map Z.to_nat t).
  pose proof Hpadm as [Hlen Hrows].
  split_and!.
  - by eapply pad_max_shape_Ok.
  - rewrite length_zip_with. lia.
  - done.
  - intros i x Hx.
    destruct (lookup_lt_is_Some_2 pad i) as [w Hw].
    { apply lookup_lt_Some in Hx. lia. }
    exists w. split_and!; [done| |].
    + rewrite (shapes_dtype_int64 R) by done.
      by eapply (Forall2_lookup_lr _ _ _ _ _ _
                   (np_pad_rows_Ok R arrays value pad HR HR0 Hpadm Hnn)).
    + apply lookup_zip_with_Some. by exists x, w.
  - by eapply max_size_per_axis_max.
  - apply Forall_lookup. intros i y.
    intros (x & w & -> & Hx & Hw)%lookup_zip_with_Some.
    eapply padded_shape_target; try done.
    by eapply Forall_lookup_1 in Hnn.
Qed.

Lemma shape_invariant_witness :
  ∃ outs pad target,
    pad_max_shape squares (Some (Matrix [[0; 1#2]; [1#2; 1]; [0; 0]]%Q)) (Scalar 1)
      0 np_floor = Ok outs ∧
    length outs = length squares ∧
    pad_widths squares (Some (Matrix [[0; 1#2]; [1#2; 1]; [0; 0]]%Q)) (Scalar 1)
      np_floor = Ok pad ∧
    (∀ i x, squares !! i = Some x →
       ∃ w, pad !! i = Some w ∧
            np_pad x (shapes_dtype squares) w 0 = Ok (padded 0 x w) ∧
            outs !! i = Some (padded 0 x w)) ∧
    per_axis_max squares target ∧
    Forall (λ y, shape y = target) outs.
Proof.
  apply (shape_invariant 2 squares
           (Some (Matrix [[0; 1#2]; [1#2; 1]; [0; 0]]%Q)) (Scalar 1) 0).
  - discriminate.
  - repeat constructor.
  - lia.
  - apply exact_margins_of_extents. repeat constructor; simpl; lia.
  - split; [by left|]. left. repeat constructor.
  - repeat constructor; simpl; unfold Qle; simpl; lia.
Defined.

(** The claim without the two conditions fails. Two arrays of rank 0
    make a shape matrix without entries, which numpy types float64, and
    [np.pad] refuses the float64 rows of the plan. And when the margin is
    [2^53 + 3], which is no float64, and the whole of it goes before the
    data, line 161 rounds it to [2^53 + 4], the after count is -1 and
    [np.pad] refuses it. *)
Lemma shape_invariant_counterexample :
  (scalars ≠ [] ∧ equal_rank 0 scalars ∧
   broadcastable (length scalars) 0 (effective None (Scalar 1)) ∧
   unit_fractions (effective None (Scalar 1)) ∧
   pad_max_shape scalars None (Scalar 1) 0 np_floor = Raise TypeError_pad_width) ∧
  (wide ≠ [] ∧ equal_rank 2 wide ∧
   broadcastable (length wide) 2 (effective (Some (Scalar 1)) (Scalar 1)) ∧
   unit_fractions (effective (Some (Scalar 1)) (Scalar 1)) ∧
   pad_max_shape wide (Some (Scalar 1)) (Scalar 1) 0 np_floor
   = Raise ValueError_negative_pad).
Proof.
  split.
  - split_and!; [discriminate|repeat constructor|exact I| |reflexivity].
    repeat constructor; unfold Qle; simpl; lia.
  - split_and!; [discriminate|apply empties_equal_rank|exact I| |].
    + repeat constructor; unfold Qle; simpl; lia.
    + exact (empties_raise _ wide_extent).
Qed.

(** ** Data preservation *)

(** C2. For arrays of one rank that is at least one, with margins that
    are float64 values (as every margin up to [2^53] is), fractions in
    [0, 1] and the floor, output [i] holds input [i] unchanged as a block
    that starts at the before counts of row [i] of the plan along every
    axis, and every cell outside that block is the fill value. *)
Theorem data_preservation {A : Type} (R : nat) (arrays : list (ndarray A))
    (before : option array_like) (after : array_like) (value : A)
    (i : nat) (x : ndarray A) :
  arrays ≠ [] → equal_rank R arrays → (0 < R)%nat → exact_margins arrays →
  broadcastable (length arrays) R (effective before after) →
  unit_fractions (effective before after) →
  arrays !! i = Some x → wf x →
  ∃ outs pad w y,
    pad_max_shape arrays before after value np_floor = Ok outs ∧
    pad_widths arrays before after np_floor = Ok pad ∧
    pad !! i = Some w ∧ outs !! i = Some y ∧
    (∀ idx, in_bounds (shape x) idx →
       in_bounds (shape y) (shift (to_nat_widths w) idx) ∧
       is_Some (item x idx) ∧
       item y (shift (to_nat_widths w) idx) = item x idx) ∧
    (∀ idx, in_bounds (shape y) idx →
       (¬ ∃ idx0, in_bounds (shape x) idx0 ∧ idx = shift (to_nat_widths w) idx0) →
       item y idx = Some value).
Proof.
  intros Hne HR HR0 Hex Hb Hu Hx Hwf.
  destruct (floor_plan_nonneg R arrays before after Hne HR Hex Hb Hu)
    as (pad & Hpad & Hpadm & Hnn).
  pose proof (pad_max_shape_Ok R arrays before after value np_floor pad
                Hne HR HR0 Hpad Hpadm Hnn) as Houts.
  destruct Hpadm as [Hlen Hrows].
  destruct (lookup_lt_is_Some_2 pad i) as [w Hw].
  { apply lookup_lt_Some in Hx. lia. }
  exists (zip_with (padded value) arrays pad), pad, w, (padded value x w).
  split_and!; [done..| | |].
  - apply lookup_zip_with_Some. by exists x, w.
  - apply item_padded; [done|].
    eapply Forall_lookup_1 in Hrows; [|done].
    eapply Forall_lookup_1 in HR; [|done]. simpl in HR. lia.
  - apply item_padded; [done|].
    eapply Forall_lookup_1 in Hrows; [|done].
    eapply Forall_lookup_1 in HR; [|done]. simpl in HR. lia.
Qed.

Lemma data_preservation_witness :
  ∃ outs pad w y,
    pad_max_shape arrays_38 (Some (Scalar (1#2))) (Scalar 1) 0 np_floor = Ok outs ∧
    pad_widths arrays_38 (Some (Scalar (1#2))) (Scalar 1) np_floor = Ok pad ∧
    pad !! 0%nat = Some w ∧ outs !! 0%nat = Some y ∧
    (∀ idx, in_bounds (shape (arange 1 4)) idx →
       in_bounds (shape y) (shift (to_nat_widths w) idx) ∧
       is_Some (item (arange 1 4) idx) ∧
       item y (shift (to_nat_widths w) idx) = item (arange 1 4) idx) ∧
    (∀ idx, in_bounds (shape y) idx →
       (¬ ∃ idx0, in_bounds (shape (arange 1 4)) idx0 ∧
                  idx = shift (to_nat_widths w) idx0) →
       item y idx = Some 0).
Proof.
  apply (data_preservation 1 arrays_38 (Some (Scalar (1#2))) (Scalar 1) 0 0 (arange 1 4)).
  - discriminate.
  - repeat constructor.
  - lia.
  - apply exact_margins_of_extents. repeat constructor; simpl; lia.
  - exact I.
  - repeat constructor; unfold Qle; simpl; lia.
  - reflexivity.
  - reflexivity.
Defined.

(** Without the two conditions there is no output to hold the data: for the
    two arrays of rank 0, centred, and for the arrays with the margin
    [2^53 + 3], aligned to the end of the axis, the inputs are well
    formed and of one rank, the fractions lie in [0, 1], and the call
    returns nothing. *)
Lemma data_preservation_counterexample :
  (Forall wf scalars ∧ equal_rank 0 scalars ∧
   broadcastable (length scalars) 0 (effective (Some (Scalar (1#2))) (Scalar 1)) ∧
   unit_fractions (effective (Some (Scalar (1#2))) (Scalar 1)) ∧
   ¬ is_Ok (pad_max_shape scalars (Some (Scalar (1#2))) (Scalar 1) 0 np_floor)) ∧
  (Forall wf wide ∧ equal_rank 2 wide ∧
   broadcastable (length wide) 2 (effective (Some (Scalar 1)) (Scalar 1)) ∧
   unit_fractions (effective (Some (Scalar 1)) (Scalar 1)) ∧
   ¬ is_Ok (pad_max_shape wide (Some (Scalar 1)) (Scalar 1) 0 np_floor)).
Proof.
  split.
  - split_and!; [repeat constructor|repeat constructor|exact I| |].
    + repeat constructor; unfold Qle; simpl; lia.
    + intros [outs Houts]. vm_compute in Houts. discriminate Houts.
  - split_and!; [apply empties_wf|apply empties_equal_rank|exact I| |].
    + repeat constructor; unfold Qle; simpl; lia.
    + intros [outs Houts]. unfold wide in Houts.
      rewrite (empties_raise _ wide_extent) in Houts. discriminate Houts.
Qed.

(** ** Margin conservation *)

(** C3. Whatever the arrays, the fraction specification and the
    tie-break function, every cell of the computed plan splits the
    margin exactly: for array [i] and axis [r], before count plus after
    count equals the target extent along [r] minus the extent of
    array [i] along [r]. *)
Theorem margin_conservation {A : Type} (arrays : list (ndarray A))
    (before : option array_like) (after : array_like) (tie_break : Q → Q)
    (pad : list (list (Z * Z))) (i r : nat) (x : ndarray A) (d : nat)
    (row : list (Z * Z)) (b a : Z) :
  pad_widths arrays before after tie_break = Ok pad →
  arrays !! i = Some x → shape x !! r = Some d →
  pad !! i = Some row → row !! r = Some (b, a) →
  ∃ t mx, max_size arrays = Ok [t] ∧ t !! r = Some mx ∧
          b + a = mx - Z.of_nat d.
Proof.
  intros Hpad Hx Hd Hrow Hp.
  destruct (pad_widths_inv _ _ _ _ _ Hpad) as (shapes & fr & mg & Hsh & Hfr & Hmg & Hcell).
  destruct (shape_matrix_Ok _ _ Hsh) as (Hshapes & R & HR & Hshm).
  assert (0 < length arrays)%nat as HN.
  { apply lookup_lt_Some in Hx. lia. }
  destruct (margins_spec _ _ _ Hshm HN) as (t & mg' & Ht & Htlen & Hmg' & Hmgm & Hmgcell).
  assert (mg' = mg) as -> by congruence.
  destruct (Hcell i r row (b, a) Hrow Hp)
    as (mrow & m & frow & f & Hmrow & Hm & _ & _ & Hb & Ha). simpl in *.
  assert (i < length arrays)%nat by (by eapply lookup_lt_Some).
  assert (r < R)%nat.
  { eapply Forall_lookup_1 in HR; [|done]. simpl in HR. rewrite <-HR.
    by eapply lookup_lt_Some. }
  destruct (lookup_bc_matrix _ _ mg i r mrow Hmgm) as [Hmrow' Hjm]; [done..|].
  rewrite Hjm in Hm.
  destruct (Hmgcell i r mrow m Hmrow' Hm) as (srow & d' & mx & Hsrow & Hd' & Hmx & ->).
  exists t, mx. unfold max_size. rewrite Hsh. simpl. split_and!; [done..|].
  subst shapes. rewrite list_lookup_fmap, Hx in Hsrow. injection Hsrow as <-.
  rewrite list_lookup_fmap, Hd in Hd'. injection Hd' as <-. lia.
Qed.

Lemma margin_conservation_witness :
  ∃ t mx, max_size arrays_38 = Ok [t] ∧ t !! 0%nat = Some mx ∧
          3 + 2 = mx - Z.of_nat 3.
Proof.
  apply (margin_conservation arrays_38 (Some (Scalar (1#2))) (Scalar 1) np_ceil
           [[(3, 2)]; [(0, 0)]] 0 0 (arange 1 4) 3%nat [(3, 2)] 3 2);
    reflexivity.
Defined.

(** ** Zero-margin identity *)

(** C4. An array of rank at least one whose shape is already the target
    shape gets pad widths (0, 0) on every axis, whatever the fractions,
    for every tie-break function that maps integers to themselves;
    [np.pad] returns it unchanged, and it is the output at its position
    whenever the call returns. *)
Theorem zero_margin_identity {A : Type} (R : nat) (arrays : list (ndarray A))
    (before : option array_like) (after : array_like) (value : A)
    (tie_break : Q → Q) (i : nat) (x : ndarray A) (t : list Z) :
  arrays ≠ [] → equal_rank R arrays → (0 < R)%nat →
  broadcastable (length arrays) R (effective before after) →
  (∀ q k, (q == inject_Z k)%Q → (tie_break q == inject_Z k)%Q) →
  arrays !! i = Some x → wf x →
  max_size arrays = Ok [t] → map Z.of_nat (shape x) = t →
  ∃ pad w,
    pad_widths arrays before after tie_break = Ok pad ∧
    pad !! i = Some w ∧ length w = R ∧ Forall (λ p, p = (0, 0)) w ∧
    np_pad x (shapes_dtype arrays) w value = Ok x ∧
    ∀ outs, pad_max_shape arrays before after value tie_break = Ok outs →
            outs !! i = Some x.
Proof.
  intros Hne HR HR0 Hb Htb Hx Hwf Ht Hshape.
  destruct (pad_widths_spec R arrays before after tie_break Hne HR Hb)
    as (shapes & fr & t' & mg & pad & Hsh & Hfr & Hfrm & Hfrc & Ht' & Htl & Hmg & Hmgm
        & Hmgc & Hpad & [Hlen Hrows] & Hpadc).
  assert (t' = t) as -> by congruence.
  destruct (lookup_lt_is_Some_2 pad i) as [w Hw].
  { apply lookup_lt_Some in Hx. lia. }
  assert (length w = R) as HwR by (by eapply Forall_lookup_1 in Hrows).
  assert (length w = length (shape x)) as Hwlen.
  { eapply Forall_lookup_1 in HR; [|done]. simpl in HR. lia. }
  assert (Forall (λ p, p = (0, 0)) w) as Hz.
  { apply Forall_lookup. intros r [b a] Hp.
    destruct (Hpadc i r w (b, a) Hw Hp)
      as (mrow & m & frow & f & Hmrow & Hm & _ & _ & Hp1 & Hp2). simpl in *.
    destruct (Hmgc i r mrow m Hmrow Hm) as (x' & d & mx & Hx' & Hd & Hmx & ->).
    assert (x' = x) as -> by congruence.
    rewrite <-Hshape, list_lookup_fmap, Hd in Hmx. injection Hmx as <-.
    rewrite Z.sub_diag in *.
    assert (b = 0) as ->.
    { rewrite Hp1, scaled_margin_0. by apply astype_int_Qeq, Htb. }
    f_equal. lia. }
  assert (np_pad x (shapes_dtype arrays) w value = Ok x) as Hid.
  { rewrite (shapes_dtype_int64 R) by done.
    rewrite np_pad_Ok; [by rewrite padded_zero| |done|].
    - eapply Forall_impl; [done|]. by intros p ->.
    - intros ->. simpl in HwR. lia. }
  exists pad, w. split_and!; [done..|].
  intros outs Houts. unfold pad_max_shape in Houts. rewrite Hpad in Houts.
  simpl in Houts. apply mapM_result_Ok in Houts.
  destruct (Forall2_lookup_l _ _ _ i (x, w) Houts) as (y & Hy & Hxy).
  { apply lookup_zip_with_Some. by exists x, w. }
  simpl in Hxy. rewrite Hid in Hxy. by injection Hxy as <-.
Qed.

Lemma zero_margin_identity_witness :
  ∃ pad w,
    pad_widths arrays_357 (Some (Scalar (1#2))) (Scalar 1) np_floor = Ok pad ∧
    pad !! 2%nat = Some w ∧ length w = 1%nat ∧ Forall (λ p, p = (0, 0)) w ∧
    np_pad (arange 0 7) (shapes_dtype arrays_357) w 9 = Ok (arange 0 7) ∧
    ∀ outs, pad_max_shape arrays_357 (Some (Scalar (1#2))) (Scalar 1) 9 np_floor
            = Ok outs →
            outs !! 2%nat = Some (arange 0 7).
Proof.
  apply (zero_margin_identity 1 arrays_357 (Some (Scalar (1#2))) (Scalar 1) 9 np_floor
           2 (arange 0 7) [7]).
  - discriminate.
  - repeat constructor.
  - lia.
  - exact I.
  - exact np_floor_integer.
  - reflexivity.
  - reflexivity.
  - reflexivity.
  - reflexivity.
Defined.

(** At rank 0 the claim fails: the first of the two arrays of rank 0 has
    the target shape, the floor maps integers to themselves, the row of
    the plan is empty, and yet [np.pad] refuses that row, a float64
    array, and the call raises instead of returning the array. *)
Lemma zero_margin_identity_counterexample :
  scalars ≠ [] ∧ equal_rank 0 scalars ∧
  broadcastable (length scalars) 0 (effective (Some (Scalar (1#2))) (Scalar 1)) ∧
  scalars !! 0%nat = Some (mk_ndarray [] [5]) ∧ wf (mk_ndarray (A:=Z) [] [5]) ∧
  max_size scalars = Ok [[]] ∧
  map Z.of_nat (shape (mk_ndarray (A:=Z) [] [5])) = [] ∧
  pad_widths scalars (Some (Scalar (1#2))) (Scalar 1) np_floor = Ok [[]; []] ∧
  np_pad (mk_ndarray [] [5]) (shapes_dtype scalars) [] 0 = Raise TypeError_pad_width ∧
  pad_max_shape scalars (Some (Scalar (1#2))) (Scalar 1) 0 np_floor
  = Raise TypeError_pad_width.
Proof.
  split_and!; try reflexivity; [discriminate|repeat constructor].
Qed.

(** ** Pad counts *)

(** C5. For every array [i] and axis [r] the before count is
    [tie_break(margin[i,r] * before[i,r])], the product being that of
    float64, cast to an integer, and the after count is the margin minus
    that. With the floor, all fractions in [0, 1] and all margins float64
    values (as every margin up to [2^53] is), the before count lies
    between 0 and the margin and both pad widths are non-negative; for
    arrays of rank at least one [np.pad] then accepts the pad widths of
    every array, so the call returns. *)
Theorem pad_counts_in_range {A : Type} (R : nat) (arrays : list (ndarray A))
    (before : option array_like) (after : array_like) (value : A) :
  arrays ≠ [] → equal_rank R arrays →
  broadcastable (length arrays) R (effective before after) →
  (∀ (tie_break : Q → Q) i r, (i < length arrays)%nat → (r < R)%nat →
     ∃ m f, margin_at arrays i r = Some m ∧
            fraction_at arrays before after i r = Some f ∧
            pad_at arrays before after tie_break i r
            = Some (astype_int (tie_break (scaled_margin m f)),
                    m - astype_int (tie_break (scaled_margin m f)))) ∧
  (unit_fractions (effective before after) → exact_margins arrays →
     (∀ i r, (i < length arrays)%nat → (r < R)%nat →
        ∃ m b a, margin_at arrays i r = Some m ∧
                 pad_at arrays before after np_floor i r = Some (b, a) ∧
                 0 ≤ b ≤ m ∧ 0 ≤ a) ∧
     ((0 < R)%nat →
      (∃ pad, pad_widths arrays before after np_floor = Ok pad ∧
              Forall2 (λ x w, is_Ok (np_pad x (shapes_dtype arrays) w value))
                arrays pad) ∧
      is_Ok (pad_max_shape arrays before after value np_floor))).
Proof.
  intros Hne HR Hb. split.
  - intros tie_break i r Hi Hr.
    destruct (pad_at_spec R arrays before after tie_break i r Hne HR Hb Hi Hr)
      as (m & f & q & Hm & _ & Hf & _ & _ & Hp).
    by exists m, f.
  - intros Hu Hex.
    destruct (floor_plan_nonneg R arrays before after Hne HR Hex Hb Hu)
      as (pad & Hpad & Hpadm & Hnn).
    split.
    + intros i r Hi Hr.
      destruct (pad_at_spec R arrays before after np_floor i r Hne HR Hb Hi Hr)
        as (m & f & q & Hm & (t & Ht & Hcell) & Hf & Hq & -> & Hp).
      assert (0 ≤ m) as Hm0 by (by eapply margin_cell_nonneg).
      assert (representable (inject_Z m)) as Hrep by (by eapply Hex).
      assert (in_unit (fraction_of before q)) as Hin
        by (apply in_unit_fraction_of; by eapply Forall_forall in Hu).
      pose proof (floor_fraction_bounds m _ Hm0 Hrep Hin).
      eexists m, _, _. split_and!; [done|exact Hp|lia..].
    + intros HR0. split.
      * exists pad. split; [done|]. rewrite (shapes_dtype_int64 R) by done.
        eapply Forall2_impl; [by eapply (np_pad_rows_Ok R arrays value)|].
        intros x w Hxw. cbn beta in *. rewrite Hxw. by eexists.
      * eexists. by eapply pad_max_shape_Ok.
Qed.

Lemma pad_counts_in_range_witness :
  (∃ m f, margin_at arrays_38 0 0 = Some m ∧
          fraction_at arrays_38 (Some (Scalar (1#2))) (Scalar 1) 0 0 = Some f ∧
          pad_at arrays_38 (Some (Scalar (1#2))) (Scalar 1) np_ceil 0 0
          = Some (astype_int (np_ceil (scaled_margin m f)),
                  m - astype_int (np_ceil (scaled_margin m f)))) ∧
  (∃ m b a, margin_at arrays_38 0 0 = Some m ∧
            pad_at arrays_38 (Some (Scalar (1#2))) (Scalar 1) np_floor 0 0
            = Some (b, a) ∧ 0 ≤ b ≤ m ∧ 0 ≤ a) ∧
  is_Ok (pad_max_shape arrays_38 (Some (Scalar (1#2))) (Scalar 1) 0 np_floor).
Proof.
  destruct (pad_counts_in_range 1 arrays_38 (Some (Scalar (1#2))) (Scalar 1) 0)
    as [Hcell Hfloor].
  - discriminate.
  - repeat constructor.
  - exact I.
  - destruct Hfloor as (Hrange & Hok).
    + repeat constructor; unfold Qle; simpl; lia.
    + apply exact_margins_of_extents. repeat constructor; simpl; lia.
    + split_and!; [apply Hcell; simpl; lia | apply Hrange; simpl; lia |].
      apply Hok. lia.
Defined.

(** For a margin that is no float64 the bound fails. The first of the
    arrays [wide] has the margin [2^53 + 3] along the second axis; the
    fraction is 1; line 161 turns the margin into the float64 [2^53 + 4],
    which the floor keeps: the before count exceeds the margin, the after
    count is -1, and [np.pad] raises on the negative width. *)
Lemma pad_counts_in_range_counterexample :
  wide ≠ [] ∧ equal_rank 2 wide ∧
  broadcastable (length wide) 2 (effective (Some (Scalar 1)) (Scalar 1)) ∧
  unit_fractions (effective (Some (Scalar 1)) (Scalar 1)) ∧
  margin_at wide 0 1 = Some (2 ^ 53 + 3) ∧ ¬ representable (inject_Z (2 ^ 53 + 3)) ∧
  (∃ f, fraction_at wide (Some (Scalar 1)) (Scalar 1) 0 1 = Some f ∧ (f == 1)%Q) ∧
  pad_at wide (Some (Scalar 1)) (Scalar 1) np_floor 0 1 = Some (2 ^ 53 + 4, -1) ∧
  2 ^ 53 + 3 < 2 ^ 53 + 4 ∧ -1 < 0 ∧
  pad_max_shape wide (Some (Scalar 1)) (Scalar 1) 0 np_floor
  = Raise ValueError_negative_pad.
Proof.
  split_and!; [discriminate|apply empties_equal_rank|exact I| | | | | |lia|lia|].
  - repeat constructor; unfold Qle; simpl; lia.
  - unfold margin_at, wide. by rewrite (empties_margins _ wide_extent).
  - exact not_representable_wide_margin.
  - exists (fadd (inject_Z 0) 1). split; [|reflexivity].
    unfold fraction_at, wide, shape_matrix, empties. cbn [map shape].
    rewrite wide_extent. reflexivity.
  - unfold pad_at, wide. by rewrite (empties_plan _ wide_extent).
  - exact (empties_raise _ wide_extent).
Qed.

(** ** Tie-break directionality *)

(** C6. On an axis whose margin is 5 and whose fraction is 0.5, the
    floor gives 2 cells before and 3 after, the ceiling 3 before and 2
    after. *)
Theorem tie_break_directionality {A : Type} (R : nat) (arrays : list (ndarray A))
    (before : option array_like) (after : array_like) (i r : nat) (f : Q) :
  arrays ≠ [] → equal_rank R arrays →
  broadcastable (length arrays) R (effective before after) →
  margin_at arrays i r = Some 5 →
  fraction_at arrays before after i r = Some f → (f == 1#2)%Q →
  pad_at arrays before after np_floor i r = Some (2, 3) ∧
  pad_at arrays before after np_ceil i r = Some (3, 2).
Proof.
  intros Hne HR Hb Hm Hf Hhalf.
  assert ((i < length arrays)%nat ∧ (r < R)%nat) as [Hi Hr].
  { apply cell_Some in Hm as (mg & mrow & Hmg & Hmrow & Hc).
    destruct (shape_matrix_equal_rank R arrays HR) as [Hsh Hshm].
    rewrite Hsh in Hmg. simpl in Hmg.
    destruct (margins_spec _ R _ Hshm) as (t & mg' & _ & _ & Hmg' & Hmgm & _).
    { destruct arrays; simpl; [done|lia]. }
    assert (mg' = mg) as -> by congruence.
    by eapply is_matrix_lookup. }
  split.
  - destruct (pad_at_spec R arrays before after np_floor i r Hne HR Hb Hi Hr)
      as (m & f' & q & Hm' & _ & Hf' & _ & _ & ->).
    assert (m = 5) as -> by congruence. assert (f' = f) as -> by congruence.
    by rewrite floor_half_of_5.
  - destruct (pad_at_spec R arrays before after np_ceil i r Hne HR Hb Hi Hr)
      as (m & f' & q & Hm' & _ & Hf' & _ & _ & ->).
    assert (m = 5) as -> by congruence. assert (f' = f) as -> by congruence.
    by rewrite ceil_half_of_5.
Qed.

Lemma tie_break_directionality_witness :
  pad_at arrays_38 (Some (Scalar (1#2))) (Scalar 1) np_floor 0 0 = Some (2, 3) ∧
  pad_at arrays_38 (Some (Scalar (1#2))) (Scalar 1) np_ceil 0 0 = Some (3, 2).
Proof.
  apply (tie_break_directionality 1 arrays_38 (Some (Scalar (1#2))) (Scalar 1) 0 0
           (fadd (inject_Z 0) (1#2))).
  - discriminate.
  - repeat constructor.
  - exact I.
  - reflexivity.
  - reflexivity.
  - reflexivity.
Defined.

(** ** [after] is ignored when [before] is given *)

(** C7. When [before] is supplied, [after] has no influence on the
    result: any two values of [after] give the same fractions (line 156
    does not read [after]), the same plan and the same outcome, for every
    collection, fill value and tie-break function. *)
Theorem after_ignored_if_before_given {A : Type} (arrays : list (ndarray A))
    (b a1 a2 : array_like) (value : A) (tie_break : Q → Q) :
  (∀ shapes, fractions shapes (Some b) a1 = fractions shapes (Some b) a2) ∧
  pad_widths arrays (Some b) a1 tie_break = pad_widths arrays (Some b) a2 tie_break ∧
  pad_max_shape arrays (Some b) a1 value tie_break
  = pad_max_shape arrays (Some b) a2 value tie_break.
Proof.
  assert (∀ shapes, fractions shapes (Some b) a1 = fractions shapes (Some b) a2)
    as Hfr by (intros shapes; unfold fractions; reflexivity).
  assert (pad_widths arrays (Some b) a1 tie_break
          = pad_widths arrays (Some b) a2 tie_break) as Hpad.
  { unfold pad_widths. destruct (shape_matrix arrays) as [shapes|e]; [|done].
    cbn [mbind result_bind]. by rewrite (Hfr shapes). }
  split_and!; [exact Hfr|exact Hpad|].
  unfold pad_max_shape. by rewrite Hpad.
Qed.

(** Without [before], [after] does decide the outcome. *)
Example doctest_after_matters :
  pad_max_shape arrays_357 None (Scalar 1) 9 np_floor
  ≠ pad_max_shape arrays_357 None (Scalar (1#2)) 9 np_floor.
Proof. vm_compute. discriminate. Qed.

(** ** Defaults *)

(** C8. Leaving [before] out gives the same outcome as passing
    [before = 1 - after]; with the default [after = 1] this is
    [before = 0], and then, with the default floor, every before count is
    zero and the whole margin is padded after the data. *)
Theorem before_defaults_to_one_minus_after {A : Type} (arrays : list (ndarray A))
    (after after' : array_like) (value : A) (tie_break : Q → Q) :
  pad_max_shape arrays None after value tie_break
  = pad_max_shape arrays (Some (one_minus after)) after' value tie_break ∧
  pad_max_shape arrays None (Scalar 1) value tie_break
  = pad_max_shape arrays (Some (Scalar 0)) after' value tie_break ∧
  ∀ R i r, arrays ≠ [] → equal_rank R arrays →
    (i < length arrays)%nat → (r < R)%nat →
    ∃ m, margin_at arrays i r = Some m ∧
         pad_at arrays None (Scalar 1) np_floor i r = Some (0, m).
Proof.
  split_and!.
  - apply pad_max_shape_one_minus.
  - apply (pad_max_shape_one_minus arrays (Scalar 1)).
  - intros R i r Hne HR Hi Hr.
    destruct (pad_at_spec R arrays None (Scalar 1) np_floor i r Hne HR I Hi Hr)
      as (m & f & q & Hm & _ & Hf & Hq & -> & Hp).
    apply list_elem_of_singleton in Hq as ->.
    exists m. split; [done|]. rewrite Hp, floor_of_nothing. by rewrite Z.sub_0_r.
Qed.

Lemma before_defaults_to_one_minus_after_witness :
  ∃ m, margin_at arrays_357 1 0 = Some m ∧
       pad_at arrays_357 None (Scalar 1) np_floor 1 0 = Some (0, m).
Proof.
  apply (before_defaults_to_one_minus_after arrays_357 (Scalar 1) (Scalar 1) 0 np_floor)
    with (R := 1%nat).
  - discriminate.
  - repeat constructor.
  - simpl. lia.
  - lia.
Defined.

(** ** Fractions outside [0, 1] *)

(** C9. The fractions are not validated. Whatever the entries of a
    broadcastable specification, the plan is computed without any
    exception, and an exception of the call is one that [np.pad] raises
    on a row of that plan. With [before = 2] the arrays of the docstring
    have margins 4, 2 and 0; the before counts 8 and 4 exceed the margins
    and the after counts -4 and -2 are negative; the plan reaches
    [np.pad], which is what raises. With [before = -1] the before counts
    are negative. *)
Theorem fractions_not_validated :
  (∀ (A : Type) (R : nat) (arrays : list (ndarray A))
     (before : option array_like) (after : array_like) (value : A)
     (tie_break : Q → Q),
     arrays ≠ [] → equal_rank R arrays →
     broadcastable (length arrays) R (effective before after) →
     ∃ pad, pad_widths arrays before after tie_break = Ok pad ∧
       ∀ e, pad_max_shape arrays before after value tie_break = Raise e →
         ∃ i x w, arrays !! i = Some x ∧ pad !! i = Some w ∧
                  np_pad x (shapes_dtype arrays) w value = Raise e) ∧
  ¬ in_unit 2 ∧ ¬ in_unit (-1) ∧
  (shapes ← shape_matrix arrays_357; margins shapes) = Ok [[4]; [2]; [0]] ∧
  pad_widths arrays_357 (Some (Scalar 2)) (Scalar 1) np_floor
    = Ok [[(8, -4)]; [(4, -2)]; [(0, 0)]] ∧
  np_pad (arange 0 3) (shapes_dtype arrays_357) [(8, -4)] 0
    = Raise ValueError_negative_pad ∧
  pad_max_shape arrays_357 (Some (Scalar 2)) (Scalar 1) 0 np_floor
    = Raise ValueError_negative_pad ∧
  pad_widths arrays_357 (Some (Scalar (-1))) (Scalar 1) np_floor
    = Ok [[(-4, 8)]; [(-2, 4)]; [(0, 0)]] ∧
  np_pad (arange 0 3) (shapes_dtype arrays_357) [(-4, 8)] 0
    = Raise ValueError_negative_pad ∧
  pad_max_shape arrays_357 (Some (Scalar (-1))) (Scalar 1) 0 np_floor
    = Raise ValueError_negative_pad.
Proof.
  split_and!; try reflexivity.
  - intros A R arrays before after value tie_break Hne HR Hb.
    destruct (pad_widths_spec R arrays before after tie_break Hne HR Hb)
      as (shapes & fr & t & mg & pad & _ & _ & _ & _ & _ & _ & _ & _ & _
          & Hpad & _ & _).
    exists pad. split; [done|].
    intros e He. unfold pad_max_shape in He. rewrite Hpad in He. simpl in He.
    apply mapM_result_Raise in He as ([x w] & Hxw & He). simpl in He.
    apply list_elem_of_lookup in Hxw as [i Hxw].
    apply lookup_zip_with_Some in Hxw as (? & ? & [= <- <-] & Hx & Hw).
    by exists i, x, w.
  - intros [_ H]. by apply H.
  - intros [H _]. by apply H.
Qed.

Lemma fractions_not_validated_witness :
  ∃ pad, pad_widths arrays_357 (Some (Scalar 2)) (Scalar 1) np_floor = Ok pad ∧
    ∃ i x w, arrays_357 !! i = Some x ∧ pad !! i = Some w ∧
             np_pad x (shapes_dtype arrays_357) w 0 = Raise ValueError_negative_pad.
Proof.
  destruct (proj1 fractions_not_validated Z 1%nat arrays_357
              (Some (Scalar 2)) (Scalar 1) 0 np_floor) as (pad & Hplan & Hraise).
  - discriminate.
  - repeat constructor.
  - exact I.
  - exists pad. split; [exact Hplan|]. by apply (Hraise ValueError_negative_pad).
Defined.

(** ** The empty collection *)

(** C10. On the empty collection the call raises: the maximum over no
    shape row is undefined. No plan is computed, so nothing is padded and
    no list is returned. With a specification that cannot be broadcast
    against the empty shape matrix that exception comes first. *)
Theorem empty_collection_raises {A : Type} (before : option array_like)
    (after : array_like) (value : A) (tie_break : Q → Q) :
  max_size (A:=A) [] = Raise ValueError_zero_size ∧
  ∃ e, pad_widths (A:=A) [] before after tie_break = Raise e ∧
       pad_max_shape [] before after value tie_break = Raise e ∧
       (e = ValueError_zero_size ∨ fractions [] before after = Raise e).
Proof.
  split; [done|]. unfold pad_max_shape, pad_widths.
  change (shape_matrix (A:=A) []) with (Ok (A:=list (list Z)) []). simpl.
  destruct (fractions [] before after) as [fr|e]; simpl.
  - exists ValueError_zero_size. auto.
  - exists e. auto.
Qed.

(** * Further properties of [pad_max_shape] *)

(** ** The shape of the plan, whatever the specification *)

Section plan_dims.
Context {A : Type}.
Implicit Types (arrays : list (ndarray A)) (x y : ndarray A) (value : A).
Implicit Types (tie_break : Q → Q).

Lemma broadcast2_Ok_is_matrix {S T U} (op : S → T → U) n1 r1 n2 r2 a b m :
  is_matrix n1 r1 (as2d a) → is_matrix n2 r2 (as2d b) →
  broadcast2 op a b = Ok m →
  ∃ n r, bc n1 n2 = Ok n ∧ bc r1 r2 = Ok r ∧ is_matrix n r m.
Proof.
  intros Ha Hb H.
  pose proof (length_as2d a) as Hn1. pose proof (length_as2d b) as Hn2.
  assert (∃ n r, bc n1 n2 = Ok n ∧ bc r1 r2 = Ok r) as (n & r & Hn & Hr).
  { unfold broadcast2 in H. inv_Ok.
    rewrite (ncols_matrix n1 r1 (as2d a)), (ncols_matrix n2 r2 (as2d b)) in *
      by (done || destruct Ha, Hb; lia).
    destruct Ha as [<- _], Hb as [<- _]. eauto. }
  destruct (broadcast2_is_matrix op _ _ _ _ _ _ a b Ha Hb Hn Hr) as (m' & Hm' & ?).
  exists n, r. rewrite H in Hm'. by injection Hm' as <-.
Qed.

Lemma asarray_is_matrix f b :
  asarray f = Ok b → is_matrix (length (as2d b)) (ncols (as2d b)) (as2d b).
Proof.
  destruct f as [q|v|m]; simpl.
  - intros [= <-]. by repeat constructor.
  - intros [= <-]. by repeat constructor.
  - intros [-> Hr]%np_array_Ok. destruct m as [|row m]; [by repeat constructor|].
    done.
Qed.

Lemma bc_absorb N n : N = n ∨ N = 1%nat → bc N n = Ok n.
Proof. intros [-> | ->]; [apply bc_same|apply bc_one_l]. Qed.

Lemma bc_pos a b n : (0 < a)%nat → (0 < b)%nat → bc a b = Ok n → (a ≤ n)%nat.
Proof.
  intros Ha Hb. unfold bc. repeat case_match; intros [= <-];
    repeat match goal with H : (_ =? _)%nat = true |- _ => apply Nat.eqb_eq in H end;
    lia.
Qed.

Lemma is_matrix_fmap {X Y} (g : X → Y) n r (m : list (list X)) :
  is_matrix n r m → is_matrix n r (map (map g) m).
Proof.
  intros [Hl Hr]. split; [by rewrite length_map|].
  apply Forall_fmap. eapply Forall_impl; [done|].
  intros row Hrow. cbn. by rewrite length_map.
Qed.

Lemma is_matrix_zip {X Y} n r (a : list (list X)) (b : list (list Y)) :
  is_matrix n r a → is_matrix n r b → is_matrix n r (zip_with zip a b).
Proof.
  intros [Hl1 Hr1] [Hl2 Hr2]. split.
  - rewrite length_zip_with. lia.
  - apply Forall_lookup. intros i row.
    intros (ra & rb & -> & Hra & Hrb)%lookup_zip_with_Some.
    eapply Forall_lookup_1 in Hr1; [|done].
    eapply Forall_lookup_1 in Hr2; [|done].
    rewrite length_zip_with. lia.
Qed.

(** Whenever the plan is computed there is at least one array, all arrays
    have one rank [R], and the plan has the broadcast shape of the shape
    matrix and the specification. *)
Lemma pad_widths_dims arrays before after tie_break pad :
  pad_widths arrays before after tie_break = Ok pad →
  ∃ R b n r,
    arrays ≠ [] ∧ equal_rank R arrays ∧
    asarray (effective before after) = Ok b ∧
    bc (length arrays) (length (as2d b)) = Ok n ∧
    bc R (ncols (as2d b)) = Ok r ∧
    is_matrix n r pad.
Proof.
  unfold pad_widths. intros H. inv_Ok.
  rename x into shapes, x0 into fr, x1 into mg, x2 into scaled, x3 into pad_after.
  destruct (shape_matrix_Ok _ _ H0) as (Hshapes & R & HR & Hshm).
  assert (arrays ≠ []) as Hne.
  { intros ->. subst shapes. done. }
  assert (0 < length arrays)%nat as HN by (destruct arrays; simpl; [done|lia]).
  destruct (margins_spec _ _ _ Hshm HN) as (t & mg' & _ & _ & Hmg' & Hmgm & _).
  assert (mg' = mg) as -> by congruence.
  assert (∃ b, asarray (effective before after) = Ok b ∧
          ∃ (op : Z → Q → Q) (c : Z),
            broadcast2 op (map (map (λ _ : Z, c)) shapes) b = Ok fr)
    as (b & Hb & op & c & Hfr).
  { unfold fractions in H1. destruct before as [before|]; inv_Ok; eauto 10. }
  assert (is_matrix (length arrays) R (as2d (map (map (λ _ : Z, c)) shapes))) as Hc.
  { apply is_matrix_as2d; [|done]. by apply is_matrix_fmap. }
  destruct (broadcast2_Ok_is_matrix _ _ _ _ _ _ _ _ Hc (asarray_is_matrix _ _ Hb) Hfr)
    as (n & r & Hn & Hr & Hfrm).
  pose proof (length_as2d b) as Hn2.
  pose proof (bc_pos _ _ _ HN Hn2 Hn) as HNn.
  pose proof Hn as [HNn' _]%bc_inv. pose proof Hr as [HRr' _]%bc_inv.
  assert (∀ {X Y Z'} (op' : X → Y → Z') (a : list (list X)) (k : list (list Y)) m,
    is_matrix (length arrays) R a → is_matrix n r k →
    broadcast2 op' a k = Ok m → is_matrix n r m) as Hstep.
  { intros X Y Z' op' a k m Ha Hk Hm.
    destruct (broadcast2_Ok_is_matrix op' (length arrays) R n r a k m)
      as (n' & r' & Hn' & Hr' & Hmm); [by apply is_matrix_as2d| |done|].
    { apply is_matrix_as2d; [done|lia]. }
    rewrite bc_absorb in Hn', Hr' by done. by simplify_eq. }
  exists R, b, n, r. split_and!; [done..|]. subst pad.
  pose proof (Hstep _ _ _ _ _ _ _ Hmgm Hfrm H3) as Hscm.
  apply is_matrix_zip.
  - by apply is_matrix_fmap.
  - eapply Hstep; [exact Hmgm| |exact H4]. by apply is_matrix_fmap.
Qed.
End plan_dims.

(** ** What a returning call returns *)

Section returned.
Context {A : Type}.
Implicit Types (arrays outs : list (ndarray A)) (x y : ndarray A) (value : A).
Implicit Types (tie_break : Q → Q).

(** Every cell of a computed plan splits the margin of its array and
    axis. *)
Lemma plan_cell_conservation arrays before after tie_break pad i r x d row b a :
  pad_widths arrays before after tie_break = Ok pad →
  arrays !! i = Some x → shape x !! r = Some d →
  pad !! i = Some row → row !! r = Some (b, a) →
  ∃ t mx, max_size arrays = Ok [t] ∧ t !! r = Some mx ∧
          b + a = mx - Z.of_nat d.
Proof.
  intros Hpad Hx Hd Hrow Hp.
  destruct (pad_widths_inv _ _ _ _ _ Hpad) as (shapes & fr & mg & Hsh & _ & Hmg & Hcell).
  destruct (shape_matrix_Ok _ _ Hsh) as (Hshapes & R & HR & Hshm).
  pose proof (lookup_lt_Some _ _ _ Hx) as Hi.
  destruct (margins_spec _ _ _ Hshm) as (t & mg' & Ht & Htlen & Hmg' & Hmgm & Hmgcell);
    [lia|].
  assert (mg' = mg) as -> by congruence.
  destruct (Hcell i r row (b, a) Hrow Hp)
    as (mrow & m & _ & _ & Hmrow & Hm & _ & _ & _ & Ha). simpl in *.
  assert (r < R)%nat.
  { eapply Forall_lookup_1 in HR; [|done]. simpl in HR. rewrite <-HR.
    by eapply lookup_lt_Some. }
  destruct (lookup_bc_matrix _ _ mg i r mrow Hmgm) as [Hmrow' Hjm]; [done..|].
  rewrite Hjm in Hm.
  destruct (Hmgcell i r mrow m Hmrow' Hm) as (srow & d' & mx & Hsrow & Hd' & Hmx & ->).
  exists t, mx. unfold max_size. rewrite Hsh. simpl. split_and!; [done..|].
  subst shapes. rewrite list_lookup_fmap, Hx in Hsrow. injection Hsrow as <-.
  rewrite list_lookup_fmap, Hd in Hd'. injection Hd' as <-. lia.
Qed.

(** A returning call has padded every array by its row of the plan, a row
    with one pair of non-negative widths per axis; the arrays have rank at
    least one. *)
Lemma returned_rows arrays before after value tie_break outs :
  pad_max_shape arrays before after value tie_break = Ok outs →
  ∃ R pad,
    arrays ≠ [] ∧ equal_rank R arrays ∧ (0 < R)%nat ∧
    pad_widths arrays before after tie_break = Ok pad ∧
    length outs = length arrays ∧
    ∀ i x, arrays !! i = Some x →
      ∃ w, pad !! i = Some w ∧ length w = R ∧ nonneg_widths w ∧
           outs !! i = Some (padded value x w).
Proof.
  unfold pad_max_shape. intros H. inv_Ok. rename x into pad.
  destruct (pad_widths_dims _ _ _ _ _ H0)
    as (R & b & n & r & Hne & HR & Hb & Hn & Hr & [Hlen Hrows]).
  apply mapM_result_Ok in H.
  assert (0 < length arrays)%nat as HN by (destruct arrays; simpl; [done|lia]).
  pose proof (bc_pos _ _ _ HN (length_as2d b) Hn) as HNn.
  assert (∀ i x, arrays !! i = Some x →
    ∃ w, pad !! i = Some w ∧ length w = R ∧ w ≠ [] ∧ nonneg_widths w ∧
         outs !! i = Some (padded value x w)) as Hall.
  { intros i x Hx. pose proof (lookup_lt_Some _ _ _ Hx) as Hi.
    destruct (lookup_lt_is_Some_2 pad i) as [w Hw]; [lia|].
    destruct (Forall2_lookup_l _ _ _ i (x, w) H) as (y & Hy & Hxy).
    { apply lookup_zip_with_Some. by exists x, w. }
    simpl in Hxy. destruct (np_pad_Ok_inv _ _ _ _ _ Hxy) as (Hdt & Hwne & Hnn & Hw').
    eapply Forall_lookup_1 in Hrows; [|done]. simpl in Hrows.
    eapply Forall_lookup_1 in HR; [|done]. simpl in HR.
    assert (length w = R) as HwR.
    { apply bc_inv in Hr as [Hr _]. lia. }
    exists w. split_and!; [done..|].
    rewrite Hdt, np_pad_Ok in Hxy by (done || lia). by injection Hxy as <-. }
  exists R, pad. split_and!; [done|done| |done| |].
  - destruct arrays as [|x arrays]; [done|].
    destruct (Hall 0%nat x eq_refl) as (w & _ & HwR & Hwne & _).
    destruct w; [done|]. simpl in HwR. lia.
  - apply Forall2_length in H. rewrite length_zip_with in H. lia.
  - intros i x Hx. destruct (Hall i x Hx) as (w & Hw & HwR & _ & Hnn & Hy).
    by exists w.
Qed.

(** The rows of a returning call pad every array to the target shape. *)
Lemma returned_target arrays before after value tie_break outs :
  pad_max_shape arrays before after value tie_break = Ok outs →
  ∃ R t, arrays ≠ [] ∧ equal_rank R arrays ∧ (0 < R)%nat ∧ length t = R ∧
         max_size arrays = Ok [t] ∧ length outs = length arrays ∧
         same_shape (map Z.to_nat t) outs.
Proof.
  intros H.
  destruct (returned_rows _ _ _ _ _ _ H)
    as (R & pad & Hne & HR & HR0 & Hpad & Hlen & Hrows).
  destruct (shape_matrix_equal_rank R arrays HR) as [Hsh Hshm].
  destruct (margins_spec _ R _ Hshm) as (t & _ & Ht & Htlen & _);
    [destruct arrays; simpl; [done|lia]|].
  assert (max_size arrays = Ok [t]) as Hmax by (unfold max_size; by rewrite Hsh).
  exists R, t. split_and!; [done..|].
  apply Forall_lookup. intros i y Hy.
  destruct (lookup_lt_is_Some_2 arrays i) as [x Hx].
  { apply lookup_lt_Some in Hy. lia. }
  destruct (Hrows i x Hx) as (w & Hw & HwR & Hnn & Hy').
  assert (y = padded value x w) as -> by congruence.
  eapply Forall_lookup_1 in HR; [|done]. simpl in HR.
  unfold padded. cbn [shape]. unfold padded_shape, to_nat_widths.
  apply list_eq_same_length with R.
  - by rewrite length_map.
  - rewrite length_zip_with, length_map. lia.
  - intros r d1 d2 Hr Hd1 Hd2.
    apply lookup_zip_with_Some in Hd1 as (d & p & -> & Hd & Hp).
    rewrite list_lookup_fmap in Hp.
    destruct (w !! r) as [[b a]|] eqn:Hba; [|done]. injection Hp as <-. simpl.
    rewrite list_lookup_fmap in Hd2.
    destruct (t !! r) as [mx|] eqn:Hmx; [|done]. injection Hd2 as <-.
    destruct (plan_cell_conservation _ _ _ _ _ _ _ _ _ _ _ _ Hpad Hx Hd Hw Hba)
      as (t' & mx' & Ht' & Hmx' & Hsum).
    assert (t' = t) as -> by congruence.
    assert (mx' = mx) as -> by congruence.
    eapply Forall_lookup_1 in Hnn; [|done]. simpl in Hnn. lia.
Qed.

(** The arrays a call returns on well-formed arrays are well formed. *)
Lemma returned_wf arrays before after value tie_break outs :
  Forall wf arrays →
  pad_max_shape arrays before after value tie_break = Ok outs →
  Forall wf outs.
Proof.
  intros Hwf H.
  destruct (returned_rows _ _ _ _ _ _ H)
    as (R & pad & Hne & HR & HR0 & Hpad & Hlen & Hrows).
  apply Forall_lookup. intros i y Hy.
  destruct (lookup_lt_is_Some_2 arrays i) as [x Hx].
  { apply lookup_lt_Some in Hy. lia. }
  destruct (Hrows i x Hx) as (w & Hw & HwR & Hnn & Hy').
  assert (y = padded value x w) as -> by congruence.
  eapply Forall_lookup_1 in Hwf; [|done].
  eapply Forall_lookup_1 in HR; [|done]. simpl in HR.
  unfold wf, padded. cbn [shape data].
  apply length_pad_data; [|done]. rewrite length_to_nat_widths. lia.
Qed.
End returned.

(** X1. Whenever the call returns, whatever the specification and the
    tie-break function, it returns one array per input and every returned
    array has the per-axis maximum of the input shapes as its shape. *)
Theorem returned_arrays_have_target_shape {A : Type} (arrays : list (ndarray A))
    (before : option array_like) (after : array_like) (value : A)
    (tie_break : Q → Q) (outs : list (ndarray A)) :
  pad_max_shape arrays before after value tie_break = Ok outs →
  length outs = length arrays ∧
  ∃ target, per_axis_max arrays target ∧ Forall (λ y, shape y = target) outs.
Proof.
  intros H.
  destruct (returned_target _ _ _ _ _ _ H)
    as (R & t & Hne & HR & HR0 & Htl & Ht & Hlen & Hsame).
  split; [done|]. exists (map Z.to_nat t). split; [|done].
  by eapply max_size_per_axis_max.
Qed.

Lemma returned_arrays_have_target_shape_witness :
  length (zip_with (padded 0) squares [[(0, 4); (2, 2)]; [(1, 1); (2, 0)]; [(0, 0); (0, 0)]])
  = length squares ∧
  ∃ target, per_axis_max squares target ∧
    Forall (λ y, shape y = target)
      (zip_with (padded 0) squares [[(0, 4); (2, 2)]; [(1, 1); (2, 0)]; [(0, 0); (0, 0)]]).
Proof.
  apply (returned_arrays_have_target_shape squares
           (Some (Matrix [[0; 1#2]; [1#2; 1]; [0; 0]]%Q)) (Scalar 1) 0 np_ceil).
  reflexivity.
Defined.

(** X2. Whenever the call returns on well-formed arrays, every returned
    array is well formed, and its number of cells is the product of the
    per-axis maxima of the input shapes. *)
Theorem returned_arrays_well_formed {A : Type} (arrays : list (ndarray A))
    (before : option array_like) (after : array_like) (value : A)
    (tie_break : Q → Q) (outs : list (ndarray A)) :
  Forall wf arrays →
  pad_max_shape arrays before after value tie_break = Ok outs →
  Forall wf outs ∧
  ∃ target, per_axis_max arrays target ∧
            Forall (λ y, length (data y) = size_of target) outs.
Proof.
  intros Hwf H.
  pose proof (returned_wf _ _ _ _ _ _ Hwf H) as Hwf'.
  destruct (returned_target _ _ _ _ _ _ H)
    as (R & t & Hne & HR & HR0 & Htl & Ht & Hlen & Hsame).
  split; [done|]. exists (map Z.to_nat t). split.
  - by eapply max_size_per_axis_max.
  - apply Forall_lookup. intros i y Hy.
    eapply Forall_lookup_1 in Hwf'; [|done].
    eapply Forall_lookup_1 in Hsame; [|done]. simpl in Hsame.
    unfold wf in Hwf'. by rewrite Hwf', Hsame.
Qed.

Lemma returned_arrays_well_formed_witness :
  Forall wf (zip_with (padded 0) arrays_38 [[(3, 2)]; [(0, 0)]]) ∧
  ∃ target, per_axis_max arrays_38 target ∧
    Forall (λ y, length (data y) = size_of target)
      (zip_with (padded 0) arrays_38 [[(3, 2)]; [(0, 0)]]).
Proof.
  apply (returned_arrays_well_formed arrays_38
           (Some (Scalar (1#2))) (Scalar 1) 0 np_ceil).
  - repeat constructor.
  - reflexivity.
Defined.

(** X3. Whenever the call returns, whatever the specification and the
    tie-break function, output [i] holds input [i] unchanged as a block
    that starts at the before counts of row [i] of the plan, and every
    other cell of output [i] is the fill value. *)
Theorem returned_arrays_hold_the_data {A : Type} (arrays : list (ndarray A))
    (before : option array_like) (after : array_like) (value : A)
    (tie_break : Q → Q) (outs : list (ndarray A)) (i : nat) (x : ndarray A) :
  pad_max_shape arrays before after value tie_break = Ok outs →
  arrays !! i = Some x → wf x →
  ∃ pad w y,
    pad_widths arrays before after tie_break = Ok pad ∧
    pad !! i = Some w ∧ outs !! i = Some y ∧
    (∀ idx, in_bounds (shape x) idx →
       in_bounds (shape y) (shift (to_nat_widths w) idx) ∧
       is_Some (item x idx) ∧
       item y (shift (to_nat_widths w) idx) = item x idx) ∧
    (∀ idx, in_bounds (shape y) idx →
       (¬ ∃ idx0, in_bounds (shape x) idx0 ∧ idx = shift (to_nat_widths w) idx0) →
       item y idx = Some value).
Proof.
  intros H Hx Hwf.
  destruct (returned_rows _ _ _ _ _ _ H)
    as (R & pad & Hne & HR & HR0 & Hpad & Hlen & Hrows).
  destruct (Hrows i x Hx) as (w & Hw & HwR & Hnn & Hy).
  eapply Forall_lookup_1 in HR; [|done]. simpl in HR.
  exists pad, w, (padded value x w). split_and!; [done..| |].
  - apply item_padded; [done|lia].
  - apply item_padded; [done|lia].
Qed.

Lemma returned_arrays_hold_the_data_witness :
  ∃ pad w y,
    pad_widths arrays_38 (Some (Scalar (1#2))) (Scalar 1) np_ceil = Ok pad ∧
    pad !! 0%nat = Some w ∧
    zip_with (padded 0) arrays_38 [[(3, 2)]; [(0, 0)]] !! 0%nat = Some y ∧
    (∀ idx, in_bounds (shape (arange 1 4)) idx →
       in_bounds (shape y) (shift (to_nat_widths w) idx) ∧
       is_Some (item (arange 1 4) idx) ∧
       item y (shift (to_nat_widths w) idx) = item (arange 1 4) idx) ∧
    (∀ idx, in_bounds (shape y) idx →
       (¬ ∃ idx0, in_bounds (shape (arange 1 4)) idx0 ∧
                  idx = shift (to_nat_widths w) idx0) →
       item y idx = Some 0).
Proof.
  apply (returned_arrays_hold_the_data arrays_38
           (Some (Scalar (1#2))) (Scalar 1) 0 np_ceil _ 0 (arange 1 4)).
  - reflexivity.
  - reflexivity.
  - reflexivity.
Defined.

(** ** Tie-break functions other than the floor *)

Lemma astype_int_bounds (q : Q) (m : Z) :
  (0 <= q)%Q → (q <= inject_Z m)%Q → 0 ≤ astype_int q ≤ m.
Proof.
  destruct q as [n d]. unfold Qle, astype_int. simpl. intros Hn Hm.
  rewrite Z.mul_1_r in Hn, Hm.
  rewrite Z.quot_div_nonneg by lia. split.
  - apply Z.div_pos; lia.
  - apply Z.div_le_upper_bound; lia.
Qed.

Lemma tie_break_fraction_bounds (tie_break : Q → Q) (m : Z) (f : Q) :
  monotone tie_break → integer_preserving tie_break →
  0 ≤ m → representable (inject_Z m) → in_unit f →
  0 ≤ astype_int (tie_break (scaled_margin m f)) ≤ m.
Proof.
  intros Hmono Hint Hm Hrep Hf.
  destruct (scaled_margin_bounds m f Hm Hrep Hf) as [H0 H1].
  apply astype_int_bounds.
  - apply Qle_trans with (tie_break 0%Q).
    + apply Qle_lteq. right. symmetry. by apply (Hint 0%Q 0).
    + by apply Hmono.
  - apply Qle_trans with (tie_break (inject_Z m)).
    + by apply Hmono.
    + apply Qle_lteq. right. by apply Hint.
Qed.

Lemma np_floor_monotone : monotone np_floor.
Proof.
  intros x y Hxy. unfold np_floor. rewrite <-Zle_Qle. by apply Qfloor_resp_le.
Qed.

Lemma np_ceil_monotone : monotone np_ceil.
Proof.
  intros x y Hxy. unfold np_ceil. rewrite <-Zle_Qle. by apply Qceiling_resp_le.
Qed.

Lemma np_ceil_integer : integer_preserving np_ceil.
Proof. intros q k Hq. unfold np_ceil. by rewrite Hq, Qceiling_Z. Qed.

Section other_tie_breaks.
Context {A : Type}.
Implicit Types (arrays outs : list (ndarray A)) (x y : ndarray A) (value : A).
Implicit Types (tie_break : Q → Q).

(** With fractions in [0, 1], margins that are float64 values and a
    monotone tie-break that keeps the integers, no pad count is
    negative. *)
Lemma monotone_plan_nonneg R arrays before after tie_break :
  arrays ≠ [] → equal_rank R arrays → exact_margins arrays →
  broadcastable (length arrays) R (effective before after) →
  unit_fractions (effective before after) →
  monotone tie_break → integer_preserving tie_break →
  ∃ pad, pad_widths arrays before after tie_break = Ok pad ∧
         is_matrix (length arrays) R pad ∧ Forall nonneg_widths pad.
Proof.
  intros Hne HR Hex Hb Hu Hmono Hint.
  destruct (pad_widths_spec R arrays before after tie_break Hne HR Hb)
    as (shapes & fr & t & mg & pad & Hsh & Hfr & Hfrm & Hfrc & Ht & Htl & Hmg & Hmgm
        & Hmgc & Hpad & Hpadm & Hpadc).
  exists pad. split_and!; [done..|].
  apply Forall_lookup. intros i row Hrow. apply Forall_lookup. intros r p Hp.
  destruct (Hpadc i r row p Hrow Hp)
    as (mrow & m & frow & f & Hmrow & Hm & Hfrow & Hf & Hp1 & Hp2).
  destruct (Hfrc i r frow f Hfrow Hf) as (q & Hq & ->).
  assert (0 ≤ m) as Hm0 by (eapply margin_cell_nonneg; eauto).
  assert (representable (inject_Z m)) as Hrep by (eapply Hex, margin_at_cell; eauto).
  assert (in_unit (fraction_of before q)) as Hin.
  { apply in_unit_fraction_of. by eapply Forall_forall in Hu. }
  pose proof (tie_break_fraction_bounds tie_break m _ Hmono Hint Hm0 Hrep Hin). lia.
Qed.
End other_tie_breaks.

(** X4. For arrays of rank at least one, with fractions in [0, 1] and
    margins that are float64 values (as every margin up to [2^53] is),
    every tie-break function that is monotone and maps integers to
    themselves (floor, ceiling, rounding) gives before counts between 0
    and the margin, so the call returns. *)
Theorem monotone_tie_break_never_raises {A : Type} (R : nat)
    (arrays : list (ndarray A)) (before : option array_like)
    (after : array_like) (value : A) (tie_break : Q → Q) :
  arrays ≠ [] → equal_rank R arrays → (0 < R)%nat → exact_margins arrays →
  broadcastable (length arrays) R (effective before after) →
  unit_fractions (effective before after) →
  monotone tie_break → integer_preserving tie_break →
  is_Ok (pad_max_shape arrays before after value tie_break) ∧
  ∀ i r, (i < length arrays)%nat → (r < R)%nat →
    ∃ m b a, margin_at arrays i r = Some m ∧
             pad_at arrays before after tie_break i r = Some (b, a) ∧
             0 ≤ b ≤ m ∧ 0 ≤ a.
Proof.
  intros Hne HR HR0 Hex Hb Hu Hmono Hint.
  destruct (monotone_plan_nonneg R arrays before after tie_break
              Hne HR Hex Hb Hu Hmono Hint) as (pad & Hpad & Hpadm & Hnn).
  split.
  - eexists. by eapply pad_max_shape_Ok.
  - intros i r Hi Hr.
    destruct (pad_at_spec R arrays before after tie_break i r Hne HR Hb Hi Hr)
      as (m & f & q & Hm & (t & Ht & Hcell) & Hf & Hq & -> & Hp).
    assert (0 ≤ m) as Hm0 by (by eapply margin_cell_nonneg).
    assert (representable (inject_Z m)) as Hrep by (by eapply Hex).
    assert (in_unit (fraction_of before q)) as Hin
      by (apply in_unit_fraction_of; by eapply Forall_forall in Hu).
    pose proof (tie_break_fraction_bounds tie_break m _ Hmono Hint Hm0 Hrep Hin).
    eexists m, _, _. split_and!; [done|exact Hp|lia..].
Qed.

Lemma monotone_tie_break_never_raises_witness :
  is_Ok (pad_max_shape squares (Some (Vector [0; 1#2]%Q)) (Scalar 1) 0 np_ceil) ∧
  ∃ m b a, margin_at squares 0 1 = Some m ∧
           pad_at squares (Some (Vector [0; 1#2]%Q)) (Scalar 1) np_ceil 0 1
           = Some (b, a) ∧ 0 ≤ b ≤ m ∧ 0 ≤ a.
Proof.
  destruct (monotone_tie_break_never_raises 2 squares (Some (Vector [0; 1#2]%Q))
              (Scalar 1) 0 np_ceil) as [Hok Hcells].
  - discriminate.
  - repeat constructor.
  - lia.
  - apply exact_margins_of_extents. repeat constructor; simpl; lia.
  - by left.
  - repeat constructor; unfold Qle; simpl; lia.
  - exact np_ceil_monotone.
  - exact np_ceil_integer.
  - split; [exact Hok|]. apply Hcells; simpl; lia.
Defined.

(** ** Arrays that already have one shape *)

Section one_shape.
Context {A : Type}.
Implicit Types (arrays outs : list (ndarray A)) (x y : ndarray A) (value : A).
Implicit Types (tie_break : Q → Q).

Lemma same_shape_equal_rank s arrays :
  same_shape s arrays → equal_rank (length s) arrays.
Proof. intros H. eapply Forall_impl; [done|]. by intros x ->. Qed.

(** When all arrays have one shape every margin is zero, and a tie-break
    that keeps the integers turns it into the widths (0, 0). *)
Lemma same_shape_plan_zero s arrays before after tie_break :
  arrays ≠ [] → same_shape s arrays →
  broadcastable (length arrays) (length s) (effective before after) →
  integer_preserving tie_break →
  ∃ pad, pad_widths arrays before after tie_break = Ok pad ∧
         is_matrix (length arrays) (length s) pad ∧
         Forall (Forall (λ p, p = (0, 0))) pad.
Proof.
  intros Hne Hs Hb Hint.
  pose proof (same_shape_equal_rank _ _ Hs) as HR.
  destruct (pad_widths_spec _ arrays before after tie_break Hne HR Hb)
    as (shapes & fr & t & mg & pad & Hsh & Hfr & Hfrm & Hfrc & Ht & Htl & Hmg & Hmgm
        & Hmgc & Hpad & Hpadm & Hpadc).
  exists pad. split_and!; [done..|].
  apply Forall_lookup. intros i row Hrow. apply Forall_lookup. intros r [b a] Hp.
  destruct (Hpadc i r row (b, a) Hrow Hp)
    as (mrow & m & frow & f & Hmrow & Hm & _ & _ & Hp1 & Hp2). simpl in *.
  destruct (Hmgc i r mrow m Hmrow Hm) as (x & d & mx & Hx & Hd & Hmx & ->).
  destruct (max_size_lookup _ _ _ _ Ht Hmx) as [_ (x' & d' & Hx' & Hd' & ->)].
  assert (d' = d) as ->.
  { eapply Forall_forall in Hx'; [|exact Hs]. simpl in Hx'.
    eapply Forall_lookup_1 in Hx; [|exact Hs]. simpl in Hx. congruence. }
  rewrite Z.sub_diag in *.
  assert (b = 0) as ->.
  { rewrite Hp1, scaled_margin_0. by apply astype_int_Qeq, Hint. }
  f_equal. lia.
Qed.

Lemma same_shape_identity s arrays before after value tie_break :
  arrays ≠ [] → s ≠ [] → same_shape s arrays → Forall wf arrays →
  broadcastable (length arrays) (length s) (effective before after) →
  integer_preserving tie_break →
  pad_max_shape arrays before after value tie_break = Ok arrays.
Proof.
  intros Hne Hsne Hs Hwf Hb Hint.
  destruct (same_shape_plan_zero s arrays before after tie_break Hne Hs Hb Hint)
    as (pad & Hpad & Hpadm & Hz).
  pose proof (same_shape_equal_rank _ _ Hs) as HR.
  assert (0 < length s)%nat as HR0 by (destruct s; simpl; [done|lia]).
  rewrite (pad_max_shape_Ok _ arrays before after value tie_break pad
             Hne HR HR0 Hpad Hpadm).
  - f_equal. destruct Hpadm as [Hlen Hrows].
    apply list_eq_same_length with (length arrays); [done|by rewrite length_zip_with; lia|].
    intros i y x Hi Hy Hx.
    apply lookup_zip_with_Some in Hy as (x' & w & -> & Hx' & Hw).
    assert (x' = x) as -> by congruence.
    eapply Forall_lookup_1 in Hwf; [|done].
    eapply Forall_lookup_1 in Hrows; [|done].
    eapply Forall_lookup_1 in HR; [|done].
    eapply Forall_lookup_1 in Hz; [|done]. simpl in *.
    apply padded_zero; [done|lia|done].
  - eapply Forall_impl; [exact Hz|]. intros w Hw.
    eapply Forall_impl; [exact Hw|]. by intros p ->.
Qed.
End one_shape.

(** X5. Arrays of rank at least one that all have the same shape are
    returned unchanged, with pad widths (0, 0) everywhere, for every
    broadcastable specification, also with fractions outside [0, 1], and
    every tie-break function that maps integers to themselves. *)
Theorem equal_shapes_returned_unchanged {A : Type} (s : list nat)
    (arrays : list (ndarray A)) (before : option array_like)
    (after : array_like) (value : A) (tie_break : Q → Q) :
  arrays ≠ [] → s ≠ [] → same_shape s arrays → Forall wf arrays →
  broadcastable (length arrays) (length s) (effective before after) →
  integer_preserving tie_break →
  (∃ pad, pad_widths arrays before after tie_break = Ok pad ∧
          Forall (Forall (λ p, p = (0, 0))) pad) ∧
  pad_max_shape arrays before after value tie_break = Ok arrays.
Proof.
  intros Hne Hsne Hs Hwf Hb Hint. split.
  - destruct (same_shape_plan_zero s arrays before after tie_break Hne Hs Hb Hint)
      as (pad & Hpad & _ & Hz).
    by exists pad.
  - by eapply same_shape_identity.
Qed.

Lemma equal_shapes_returned_unchanged_witness :
  (∃ pad, pad_widths [arange 0 3; arange 1 4] (Some (Scalar 2)) (Scalar 1) np_floor
          = Ok pad ∧
          Forall (Forall (λ p, p = (0, 0))) pad) ∧
  pad_max_shape [arange 0 3; arange 1 4] (Some (Scalar 2)) (Scalar 1) 9 np_floor
  = Ok [arange 0 3; arange 1 4].
Proof.
  apply (equal_shapes_returned_unchanged [3%nat] [arange 0 3; arange 1 4]
           (Some (Scalar 2)) (Scalar 1) 9 np_floor).
  - discriminate.
  - discriminate.
  - repeat constructor.
  - repeat constructor.
  - exact I.
  - exact np_floor_integer.
Defined.

(** X6. Padding is idempotent: the arrays a call returns are returned
    unchanged by a second call, whatever its broadcastable specification,
    fill value and integer-preserving tie-break function. *)
Theorem padding_twice_changes_nothing {A : Type} (R : nat)
    (arrays outs : list (ndarray A))
    (before before' : option array_like) (after after' : array_like)
    (value value' : A) (tie_break tie_break' : Q → Q) :
  Forall wf arrays → equal_rank R arrays →
  pad_max_shape arrays before after value tie_break = Ok outs →
  broadcastable (length arrays) R (effective before' after') →
  integer_preserving tie_break' →
  pad_max_shape outs before' after' value' tie_break' = Ok outs.
Proof.
  intros Hwf HR H Hb Hint.
  pose proof (returned_wf _ _ _ _ _ _ Hwf H) as Hwf'.
  destruct (returned_target _ _ _ _ _ _ H)
    as (R' & t & Hne & HR' & HR0 & Htl & Ht & Hlen & Hsame).
  assert (R' = R) as ->.
  { destruct arrays as [|x arrays]; [done|].
    apply Forall_cons in HR as [HR _], HR' as [HR' _]. congruence. }
  apply (same_shape_identity (map Z.to_nat t)); try done.
  - intros ->. destruct arrays; [done|]. simpl in Hlen. lia.
  - intros Ht0. apply (f_equal length) in Ht0. rewrite length_map in Ht0.
    simpl in Ht0. lia.
  - by rewrite length_map, Htl, Hlen.
Qed.

Lemma padding_twice_changes_nothing_witness :
  pad_max_shape (zip_with (padded 0) arrays_38 [[(2, 3)]; [(0, 0)]])
    (Some (Scalar 2)) (Scalar 1) 9 np_ceil
  = Ok (zip_with (padded 0) arrays_38 [[(2, 3)]; [(0, 0)]]).
Proof.
  apply (padding_twice_changes_nothing 1 arrays_38 _
           (Some (Scalar (1#2))) (Some (Scalar 2)) (Scalar 1) (Scalar 1)
           0 9 np_floor np_ceil).
  - repeat constructor.
  - repeat constructor.
  - reflexivity.
  - exact I.
  - exact np_ceil_integer.
Defined.

(** ** Particular fractions *)

Section particular_fractions.
Context {A : Type}.
Implicit Types (arrays outs : list (ndarray A)) (x y : ndarray A) (value : A).
Implicit Types (tie_break : Q → Q).

Lemma margin_at_lt R arrays i r m :
  equal_rank R arrays → margin_at arrays i r = Some m →
  arrays ≠ [] ∧ (i < length arrays)%nat ∧ (r < R)%nat.
Proof.
  intros HR Hm.
  apply cell_Some in Hm as (mg & mrow & Hmg & Hmrow & Hc).
  destruct (shape_matrix_equal_rank R arrays HR) as [Hsh Hshm].
  rewrite Hsh in Hmg. simpl in Hmg.
  assert (arrays ≠ []) as Hne by (by intros ->).
  destruct (margins_spec _ R _ Hshm) as (t & mg' & _ & _ & Hmg' & Hmgm & _).
  { destruct arrays; simpl; [done|lia]. }
  assert (mg' = mg) as -> by congruence.
  split; [done|]. by eapply is_matrix_lookup.
Qed.

(** The pad counts of a cell, from its margin and its fraction. *)
Lemma pad_at_cell R arrays before after tie_break i r m f :
  equal_rank R arrays →
  broadcastable (length arrays) R (effective before after) →
  margin_at arrays i r = Some m →
  fraction_at arrays before after i r = Some f →
  pad_at arrays before after tie_break i r
  = Some (astype_int (tie_break (scaled_margin m f)),
          m - astype_int (tie_break (scaled_margin m f))).
Proof.
  intros HR Hb Hm Hf.
  destruct (margin_at_lt R arrays i r m HR Hm) as (Hne & Hi & Hr).
  destruct (pad_at_spec R arrays before after tie_break i r Hne HR Hb Hi Hr)
    as (m' & f' & q & Hm' & _ & Hf' & _ & _ & ->).
  by simplify_eq.
Qed.

(** A margin is not negative. *)
Lemma margin_at_nonneg arrays i r m : margin_at arrays i r = Some m → 0 ≤ m.
Proof.
  intros Hm. destruct (margin_at_inv _ _ _ _ Hm) as (t & Ht & Hcell).
  by eapply margin_cell_nonneg.
Qed.

(** The products of line 161 for the fractions 0, 1 and 0.5. *)
Lemma scaled_margin_fraction_0 (m : Z) (f : Q) :
  (f == 0)%Q → scaled_margin m f = 0%Q.
Proof.
  intros Hf. rewrite (scaled_margin_proper m f 0 Hf).
  unfold scaled_margin, fmul. apply round64_0.
  change (astype_float 0) with 0%Q. ring.
Qed.

Lemma scaled_margin_fraction_1 (m : Z) (f : Q) :
  0 ≤ m ≤ 2 ^ 53 → (f == 1)%Q → (scaled_margin m f == inject_Z m)%Q.
Proof.
  intros Hm Hf. rewrite (scaled_margin_proper m f 1 Hf).
  rewrite scaled_margin_exact; [ring|done|by apply (representable_Z 1)|].
  apply (representable_Qeq (inject_Z m)); [ring|by apply representable_Z].
Qed.

Lemma scaled_margin_fraction_half (m : Z) (f : Q) :
  0 ≤ m ≤ 2 ^ 53 → (f == 1#2)%Q → (scaled_margin m f == m # 2)%Q.
Proof.
  intros Hm Hf. rewrite (scaled_margin_proper m f (1#2) Hf).
  assert (inject_Z m * (1#2) == m # 2)%Q as Hhalf.
  { unfold Qeq, Qmult. simpl. lia. }
  rewrite scaled_margin_exact; [done|done|by apply (representable_half 1)|].
  apply (representable_Qeq (m # 2)); [by symmetry|by apply representable_half].
Qed.

Lemma Qfloor_half (m : Z) : Qfloor (m # 2) = m / 2.
Proof. reflexivity. Qed.

Lemma Qceiling_half (m : Z) : Qceiling (m # 2) = (m + 1) / 2.
Proof. unfold Qceiling, Qfloor. simpl. Z.div_mod_to_equations. lia. Qed.
End particular_fractions.

(** X7. With a tie-break function that maps integers to themselves, a
    cell whose fraction is 0 gets the whole margin after the data, and a
    cell whose fraction is 1 and whose margin is at most [2^53] gets the
    whole margin before the data. *)
Theorem fraction_zero_and_one {A : Type} (R : nat) (arrays : list (ndarray A))
    (before : option array_like) (after : array_like) (tie_break : Q → Q)
    (i r : nat) (m : Z) (f : Q) :
  equal_rank R arrays →
  broadcastable (length arrays) R (effective before after) →
  integer_preserving tie_break →
  margin_at arrays i r = Some m →
  fraction_at arrays before after i r = Some f →
  ((f == 0)%Q → pad_at arrays before after tie_break i r = Some (0, m)) ∧
  ((f == 1)%Q → m ≤ 2 ^ 53 →
   pad_at arrays before after tie_break i r = Some (m, 0)).
Proof.
  intros HR Hb Hint Hm Hf.
  rewrite (pad_at_cell R arrays before after tie_break i r m f HR Hb Hm Hf).
  pose proof (margin_at_nonneg _ _ _ _ Hm) as Hm0.
  split.
  - intros Hval. rewrite (scaled_margin_fraction_0 m f Hval).
    assert (astype_int (tie_break 0%Q) = 0) as ->.
    { by apply astype_int_Qeq, Hint. }
    by rewrite Z.sub_0_r.
  - intros Hval Hm53.
    assert (astype_int (tie_break (scaled_margin m f)) = m) as ->.
    { apply astype_int_Qeq, Hint. by apply scaled_margin_fraction_1. }
    by rewrite Z.sub_diag.
Qed.

Lemma fraction_zero_and_one_witness :
  pad_at arrays_357 None (Scalar 1) np_ceil 0 0 = Some (0, 4) ∧
  pad_at arrays_357 (Some (Scalar 1)) (Scalar 1) np_ceil 0 0 = Some (4, 0).
Proof.
  split.
  - apply (fraction_zero_and_one 1 arrays_357 None (Scalar 1) np_ceil 0 0 4
             (fsub (inject_Z 1) 1)); try reflexivity.
    + repeat constructor.
    + exact np_ceil_integer.
  - apply (fraction_zero_and_one 1 arrays_357 (Some (Scalar 1)) (Scalar 1) np_ceil 0 0 4
             (fadd (inject_Z 0) 1)); try reflexivity.
    + repeat constructor.
    + exact np_ceil_integer.
    + lia.
Defined.

(** X8. A cell whose fraction is 0.5 and whose margin [m] is at most
    [2^53] is split by the floor into [m / 2] before and the rest after,
    and by the ceiling into [(m + 1) / 2] before and the rest after: the
    odd cell goes after the data with the floor and before it with the
    ceiling. *)
Theorem half_fraction_split {A : Type} (R : nat) (arrays : list (ndarray A))
    (before : option array_like) (after : array_like)
    (i r : nat) (m : Z) (f : Q) :
  equal_rank R arrays →
  broadcastable (length arrays) R (effective before after) →
  margin_at arrays i r = Some m → m ≤ 2 ^ 53 →
  fraction_at arrays before after i r = Some f → (f == 1#2)%Q →
  pad_at arrays before after np_floor i r = Some (m / 2, m - m / 2) ∧
  pad_at arrays before after np_ceil i r = Some ((m + 1) / 2, m - (m + 1) / 2).
Proof.
  intros HR Hb Hm Hm53 Hf Hhalf.
  rewrite !(pad_at_cell R arrays before after _ i r m f HR Hb Hm Hf).
  pose proof (margin_at_nonneg _ _ _ _ Hm) as Hm0.
  pose proof (scaled_margin_fraction_half m f (conj Hm0 Hm53) Hhalf) as Hsc.
  unfold np_floor, np_ceil. rewrite !astype_int_inject_Z.
  rewrite (Qfloor_comp _ _ Hsc), (Qceiling_comp _ _ Hsc).
  by rewrite Qfloor_half, Qceiling_half.
Qed.

Lemma half_fraction_split_witness :
  pad_at squares (Some (Scalar (1#2))) (Scalar 1) np_floor 1 0 = Some (2 / 2, 2 - 2 / 2) ∧
  pad_at squares (Some (Scalar (1#2))) (Scalar 1) np_ceil 1 0
  = Some ((2 + 1) / 2, 2 - (2 + 1) / 2).
Proof.
  apply (half_fraction_split 2 squares (Some (Scalar (1#2))) (Scalar 1) 1 0 2
           (fadd (inject_Z 0) (1#2))).
  - repeat constructor.
  - exact I.
  - reflexivity.
  - lia.
  - reflexivity.
  - reflexivity.
Defined.

(** ** When the call raises *)

Section raising.
Context {A : Type}.
Implicit Types (arrays outs : list (ndarray A)) (x y : ndarray A) (value : A).
Implicit Types (tie_break : Q → Q).

Lemma spec_dims_asarray f b :
  asarray f = Ok b → spec_dims f = (length (as2d b), ncols (as2d b)).
Proof.
  destruct f as [q|v|m]; simpl.
  - by intros [= <-].
  - by intros [= <-].
  - by intros [-> _]%np_array_Ok.
Qed.

Lemma shape_matrix_Raise arrays e :
  shape_matrix arrays = Raise e → e = ValueError_inhomogeneous.
Proof. unfold shape_matrix, np_array. case_match; [done|]. by intros [= <-]. Qed.
End raising.

(** X9. For arrays of rank at least one and a broadcastable
    specification the call returns exactly when no before count and no
    after count of the plan is negative. *)
Theorem returns_iff_counts_nonnegative {A : Type} (R : nat)
    (arrays : list (ndarray A)) (before : option array_like)
    (after : array_like) (value : A) (tie_break : Q → Q) :
  arrays ≠ [] → equal_rank R arrays → (0 < R)%nat →
  broadcastable (length arrays) R (effective before after) →
  is_Ok (pad_max_shape arrays before after value tie_break) ↔
  ∀ i r b a, pad_at arrays before after tie_break i r = Some (b, a) →
             0 ≤ b ∧ 0 ≤ a.
Proof.
  intros Hne HR HR0 Hb.
  destruct (pad_widths_spec R arrays before after tie_break Hne HR Hb)
    as (shapes & fr & t & mg & pad & _ & _ & _ & _ & _ & _ & _ & _ & _
        & Hpad & Hpadm & _).
  split.
  - intros [outs Houts] i r b a Hp.
    destruct (returned_rows _ _ _ _ _ _ Houts)
      as (R' & pad' & _ & _ & _ & Hpad' & _ & Hrows).
    assert (pad' = pad) as -> by congruence.
    apply cell_Some in Hp as (pad' & row & Hpad'' & Hrow & Hc).
    assert (pad' = pad) as -> by congruence.
    destruct (is_matrix_lookup _ _ _ _ _ _ _ Hpadm Hrow Hc) as [Hi _].
    destruct (lookup_lt_is_Some_2 arrays i Hi) as [x Hx].
    destruct (Hrows i x Hx) as (w & Hw & _ & Hnn & _).
    assert (w = row) as -> by congruence.
    unfold nonneg_widths in Hnn.
    eapply Forall_lookup_1 in Hnn; [|exact Hc]. exact Hnn.
  - intros Hnn. eexists. eapply pad_max_shape_Ok; [done..|].
    apply Forall_lookup. intros i row Hrow.
    apply Forall_lookup. intros r [b a] Hc. simpl.
    apply (Hnn i r). unfold pad_at. apply cell_Some. eauto.
Qed.

Lemma returns_iff_counts_nonnegative_witness :
  is_Ok (pad_max_shape arrays_38 (Some (Scalar (1#2))) (Scalar 1) 0 np_ceil) ↔
  ∀ i r b a, pad_at arrays_38 (Some (Scalar (1#2))) (Scalar 1) np_ceil i r
             = Some (b, a) → 0 ≤ b ∧ 0 ≤ a.
Proof.
  apply (returns_iff_counts_nonnegative 1 arrays_38
           (Some (Scalar (1#2))) (Scalar 1) 0 np_ceil).
  - discriminate.
  - repeat constructor.
  - lia.
  - exact I.
Defined.

(** X10. When the arrays do not all have the same rank the list of their
    shapes is ragged: [np.array] refuses it, no plan is computed and the
    call raises. *)
Theorem different_ranks_raise {A : Type} (arrays : list (ndarray A))
    (before : option array_like) (after : array_like) (value : A)
    (tie_break : Q → Q) :
  (¬ ∃ R, equal_rank R arrays) →
  pad_widths arrays before after tie_break = Raise ValueError_inhomogeneous ∧
  pad_max_shape arrays before after value tie_break = Raise ValueError_inhomogeneous.
Proof.
  intros Hranks.
  assert (shape_matrix arrays = Raise ValueError_inhomogeneous) as Hsh.
  { destruct (shape_matrix arrays) as [shapes|e] eqn:Hsh.
    - exfalso. apply Hranks.
      destruct (shape_matrix_Ok _ _ Hsh) as (_ & R & HR & _). by exists R.
    - by rewrite (shape_matrix_Raise _ _ Hsh). }
  assert (pad_widths arrays before after tie_break = Raise ValueError_inhomogeneous)
    as Hpad by (unfold pad_widths; by rewrite Hsh).
  split; [done|]. unfold pad_max_shape. by rewrite Hpad.
Qed.

Lemma different_ranks_raise_witness :
  pad_widths [arange 0 3; full [2; 2]%nat 1] None (Scalar 1) np_floor
  = Raise ValueError_inhomogeneous ∧
  pad_max_shape [arange 0 3; full [2; 2]%nat 1] None (Scalar 1) 0 np_floor
  = Raise ValueError_inhomogeneous.
Proof.
  apply (different_ranks_raise [arange 0 3; full [2; 2]%nat 1] None (Scalar 1) 0 np_floor).
  intros (R & HR).
  apply Forall_cons in HR as [H1 [H2 _]%Forall_cons]. simpl in *. congruence.
Defined.

(** X11. A specification that does not fit the collection makes the call
    raise: one whose number of columns is neither the rank nor 1, or, for
    two arrays or more, one whose number of rows is neither the number of
    arrays nor 1. *)
Theorem misshapen_specification_raises {A : Type} (R : nat)
    (arrays : list (ndarray A)) (before : option array_like)
    (after : array_like) (value : A) (tie_break : Q → Q) :
  equal_rank R arrays →
  ((spec_dims (effective before after)).2 ≠ R ∧
   (spec_dims (effective before after)).2 ≠ 1%nat) ∨
  ((spec_dims (effective before after)).1 ≠ length arrays ∧
   (spec_dims (effective before after)).1 ≠ 1%nat ∧ length arrays ≠ 1%nat) →
  ∃ e, pad_max_shape arrays before after value tie_break = Raise e.
Proof.
  intros HR Hbad.
  destruct (pad_max_shape arrays before after value tie_break) as [outs|e] eqn:H;
    [exfalso|by eauto].
  destruct (returned_rows _ _ _ _ _ _ H)
    as (R' & pad & Hne & HR' & _ & Hpad & _ & Hrows).
  assert (R' = R) as ->.
  { destruct arrays as [|x arrays]; [done|].
    apply Forall_cons in HR as [HR _], HR' as [HR' _]. congruence. }
  destruct (pad_widths_dims _ _ _ _ _ Hpad)
    as (R' & b & n & r & _ & HR'' & Hb & Hn & Hr & [Hlen Hrowlen]).
  assert (R' = R) as ->.
  { destruct arrays as [|x arrays]; [done|].
    apply Forall_cons in HR as [HR _], HR'' as [HR'' _]. congruence. }
  rewrite (spec_dims_asarray _ _ Hb) in Hbad. simpl in Hbad.
  apply bc_inv in Hn as [Hn1 Hn2], Hr as [Hr1 Hr2].
  destruct Hbad as [[Hc1 Hc2]|(Hr1' & Hr2' & HN)]; [|lia].
  destruct arrays as [|x arrays]; [done|].
  destruct (Hrows 0%nat x eq_refl) as (w & Hw & HwR & _).
  eapply Forall_lookup_1 in Hrowlen; [|done]. simpl in Hrowlen. lia.
Qed.

Lemma misshapen_specification_raises_witness :
  ∃ e, pad_max_shape squares (Some (Vector [0; 1#2; 1]%Q)) (Scalar 1) 0 np_floor
       = Raise e.
Proof.
  apply (misshapen_specification_raises 2 squares
           (Some (Vector [0; 1#2; 1]%Q)) (Scalar 1) 0 np_floor).
  - repeat constructor.
  - left. simpl. lia.
Defined.

(** ** Arrays of rank 0 *)

Section rank_0.
Context {A : Type}.
Implicit Types (arrays outs : list (ndarray A)) (x y : ndarray A) (value : A).
Implicit Types (tie_break : Q → Q).

(** The plan of arrays of rank 0 has one row per array at least, and no
    pair in any row. *)
Lemma rank_0_plan arrays before after tie_break pad :
  equal_rank 0 arrays →
  pad_widths arrays before after tie_break = Ok pad →
  arrays ≠ [] ∧ pad ≠ [] ∧ Forall (λ w, w = []) pad.
Proof.
  intros HR Hpad.
  destruct (pad_widths_dims _ _ _ _ _ Hpad)
    as (R & b & n & r & Hne & HR' & Hb & Hn & Hr & [Hlen Hrows]).
  assert (R = 0%nat) as ->.
  { destruct arrays as [|x arrays]; [done|].
    apply Forall_cons in HR as [HR _], HR' as [HR' _]. congruence. }
  assert (0 < length arrays)%nat as HN by (destruct arrays; simpl; [done|lia]).
  pose proof (bc_pos _ _ _ HN (length_as2d b) Hn) as HNn.
  apply bc_inv in Hr as [Hr _].
  split_and!; [done| |].
  - intros ->. simpl in Hlen. lia.
  - eapply Forall_impl; [exact Hrows|]. intros w Hw. simpl in Hw.
    destruct w; [done|]. simpl in Hw. lia.
Qed.
End rank_0.

(** X12. Arrays of rank 0 are never padded. Their shape matrix has no
    entry, so it is a float64 array, and so is the plan; whenever the
    plan is computed its rows are empty and [np.pad] refuses them as not
    of integral type. No call on arrays of rank 0 returns. *)
Theorem rank_zero_arrays_raise {A : Type} (arrays : list (ndarray A))
    (before : option array_like) (after : array_like) (value : A)
    (tie_break : Q → Q) :
  arrays ≠ [] → equal_rank 0 arrays →
  shapes_dtype arrays = float64 ∧
  (∀ pad, pad_widths arrays before after tie_break = Ok pad →
     Forall (λ w, w = []) pad ∧
     pad_max_shape arrays before after value tie_break = Raise TypeError_pad_width) ∧
  ¬ is_Ok (pad_max_shape arrays before after value tie_break).
Proof.
  intros Hne HR.
  assert (∀ pad, pad_widths arrays before after tie_break = Ok pad →
     Forall (λ w, w = []) pad ∧
     pad_max_shape arrays before after value tie_break = Raise TypeError_pad_width)
    as Hraise.
  { intros pad Hpad.
    destruct (rank_0_plan arrays before after tie_break pad HR Hpad)
      as (_ & Hpne & Hrows).
    split; [done|]. by eapply pad_max_shape_rank_0. }
  split_and!; [by apply shapes_dtype_float64|exact Hraise|].
  intros [outs Houts].
  destruct (pad_widths arrays before after tie_break) as [pad|e] eqn:Hpad.
  - destruct (Hraise pad eq_refl) as [_ Hte]. congruence.
  - unfold pad_max_shape in Houts. by rewrite Hpad in Houts.
Qed.

Lemma rank_zero_arrays_raise_witness :
  shapes_dtype scalars = float64 ∧
  (Forall (λ w : list (Z * Z), w = []) [[]; []] ∧
   pad_max_shape scalars None (Scalar 1) 0 np_floor = Raise TypeError_pad_width) ∧
  ¬ is_Ok (pad_max_shape scalars None (Scalar 1) 0 np_floor).
Proof.
  destruct (rank_zero_arrays_raise scalars None (Scalar 1) 0 np_floor)
    as (Hdt & Hraise & Hnot).
  - discriminate.
  - repeat constructor.
  - split; [exact Hdt|]. split; [|exact Hnot].
    apply (Hraise [[]; []]). reflexivity.
Defined.

(** ** The remaining doctests *)

Example doctest_squares_default :
  (take 2 <$> pad_max_shape_default squares)
  = Ok [mk_ndarray [7; 7]%nat
          [3; 3; 3; 0; 0; 0; 0;  3; 3; 3; 0; 0; 0; 0;  3; 3; 3; 0; 0; 0; 0;
           0; 0; 0; 0; 0; 0; 0;  0; 0; 0; 0; 0; 0; 0;  0; 0; 0; 0; 0; 0; 0;
           0; 0; 0; 0; 0; 0; 0];
        mk_ndarray [7; 7]%nat
          [5; 5; 5; 5; 5; 0; 0;  5; 5; 5; 5; 5; 0; 0;  5; 5; 5; 5; 5; 0; 0;
           5; 5; 5; 5; 5; 0; 0;  5; 5; 5; 5; 5; 0; 0;  0; 0; 0; 0; 0; 0; 0;
           0; 0; 0; 0; 0; 0; 0]].
Proof. reflexivity. Qed.

Example doctest_squares_centered :
  (take 2 <$> pad_max_shape squares (Some (Scalar (1#2))) (Scalar 1) 0 np_floor)
  = Ok [mk_ndarray [7; 7]%nat
          [0; 0; 0; 0; 0; 0; 0;  0; 0; 0; 0; 0; 0; 0;  0; 0; 3; 3; 3; 0; 0;
           0; 0; 3; 3; 3; 0; 0;  0; 0; 3; 3; 3; 0; 0;  0; 0; 0; 0; 0; 0; 0;
           0; 0; 0; 0; 0; 0; 0];
        mk_ndarray [7; 7]%nat
          [0; 0; 0; 0; 0; 0; 0;  0; 5; 5; 5; 5; 5; 0;  0; 5; 5; 5; 5; 5; 0;
           0; 5; 5; 5; 5; 5; 0;  0; 5; 5; 5; 5; 5; 0;  0; 5; 5; 5; 5; 5; 0;
           0; 0; 0; 0; 0; 0; 0]].
Proof. reflexivity. Qed.

(** ** float64 and rank 0 on concrete arrays *)

(** [0.7] is the float64 just below seven tenths; ten times it rounds to
    the float64 [7.0], so that a margin of 10 with [before=0.7] gives 7
    cells before, not 6. *)
Example float64_seven_tenths :
  py_float (7 # 10) = 6305039478318694 # 9007199254740992 ∧
  Qfloor (inject_Z 10 * py_float (7 # 10)) = 6 ∧
  Qfloor (scaled_margin 10 (py_float (7 # 10))) = 7.
Proof. split_and!; reflexivity. Qed.

Example plan_seven_tenths :
  pad_widths [arange 0 1; arange 0 11] (Some (Scalar (py_float (7 # 10)))) (Scalar 1)
    np_floor
  = Ok [[(7, 3)]; [(0, 0)]].
Proof. reflexivity. Qed.

(** [1 - 1e-20] is [1.0] in float64: with [after=1e-20] the whole margin
    goes before the data. *)
Example plan_after_tiny :
  pad_widths arrays_38 None (Scalar (py_float (1 # 100000000000000000000))) np_floor
  = Ok [[(5, 0)]; [(0, 0)]].
Proof. reflexivity. Qed.

(** [2^53 + 1] and [2^53 + 3] are not float64 values: the one becomes
    [2^53], the other [2^53 + 4]. *)
Example float64_beyond_2_53 :
  Qred (astype_float (inject_Z (2 ^ 53 + 1))) = inject_Z (2 ^ 53) ∧
  Qred (astype_float (inject_Z (2 ^ 53 + 3))) = inject_Z (2 ^ 53 + 4).
Proof. split; reflexivity. Qed.

(** The call on two arrays of rank 0, and the plan of the arrays
    [wide]. *)
Example rank_0_default :
  pad_max_shape_default scalars = Raise TypeError_pad_width.
Proof. reflexivity. Qed.

Example plan_wide :
  pad_widths wide (Some (Scalar 1)) (Scalar 1) np_floor
  = Ok [[(0, 0); (2 ^ 53 + 4, -1)]; [(0, 0); (0, 0)]].
Proof. exact (empties_plan _ wide_extent). Qed.
